(** * Nexus-Cars: ordered listing images and favorites

    A shallow embedding of the image-ordering and favorites code of the
    marketplace front end:

    - [sortByPosition], [normalizePositions] and the four mutations of the
      optimistic image uploader (upload, delete, pairwise reorder, set cover);
    - the earlier uploader whose delete does not renumber;
    - the edit form's [moveExisting] / [updateImagePositions] save path;
    - the favorites toggle of the listings page, its paging ([clamp],
      [totalPages], [goToPage], the row range of a page) and the cover
      picture of a card;
    - the two [getFileExt] / [safeImageExt] pairs.

    Remote calls are written in a small promise monad over the
    [listing_images] rows of one listing; positions are integers ([Z]),
    array indices are [nat]. *)

From stdpp Require Import base list sorting strings gmap.
From Stdlib Require Import ZArith Lia Ascii.

Set Default Proof Using "Type".

(** ** Data model *)

(** [type ExistingImage = { id; bucket; path; position }]. *)
Record ExistingImage := mkImage {
  id : string;
  bucket : string;
  path : string;
  position : Z
}.

#[global] Instance ExistingImage_eq_dec : EqDecision ExistingImage.
Proof. solve_decision. Defined.

(** [{ ...img, position: p }] *)
Definition with_position (p : Z) (img : ExistingImage) : ExistingImage :=
  {| id := id img; bucket := bucket img; path := path img; position := p |}.

Definition positions (l : list ExistingImage) : list Z := position <$> l.
Definition ids (l : list ExistingImage) : list string := id <$> l.

(** ** Sorting and normalisation *)

(** [Array.prototype.sort] is stable; with the comparator
    [(a, b) => a.position - b.position] it is the stable ascending sort by
    position, written here as insertion sort. *)
Fixpoint insert_by_position (x : ExistingImage) (l : list ExistingImage)
  : list ExistingImage :=
  match l with
  | [] => [x]
  | y :: ys =>
      if bool_decide (position x ≤ position y)%Z
      then x :: y :: ys
      else y :: insert_by_position x ys
  end.

Fixpoint sortByPosition (images : list ExistingImage) : list ExistingImage :=
  match images with
  | [] => []
  | x :: xs => insert_by_position x (sortByPosition xs)
  end.

(** [sorted.map((img, idx) => ({ ...img, position: idx }))] *)
Definition renumber (l : list ExistingImage) : list ExistingImage :=
  imap (λ idx img, with_position (Z.of_nat idx) img) l.

Definition normalizePositions (images : list ExistingImage)
  : list ExistingImage :=
  let sorted := sortByPosition images in
  renumber sorted.

(** [arr.findIndex(x => x.id === target)], [-1] when absent. *)
Definition findIndex (target : string) (l : list ExistingImage) : Z :=
  match list_find (λ x, id x = target) l with
  | Some (i, _) => Z.of_nat i
  | None => (-1)%Z
  end.

(** [[l[idx], ...l.filter((_, i) => i !== idx)]] *)
Definition move_to_front (idx : nat) (l : list ExistingImage)
  : list ExistingImage :=
  match l !! idx with
  | Some t => t :: delete idx l
  | None => delete idx l
  end.

(** The positions are [0 .. n-1] in some order, and in list order. *)
Definition gapless (l : list ExistingImage) : Prop :=
  positions l ≡ₚ (Z.of_nat <$> seq 0 (length l)).

Definition settled (l : list ExistingImage) : Prop :=
  positions l = Z.of_nat <$> seq 0 (length l).

(** ** The remote store *)

(** Modelled from the spec: the remote store is an external collaborator
    (the [listing_images] and [favorites] tables behind the query client),
    so its behaviour is taken from the interface the spec gives and the
    schema of the README. It keeps the rows of one listing under
    [UNIQUE (listing_id, position)], checked at every write; update and
    delete select rows by id and affect nothing, without error, when no row
    matches. Any request may also fail in transit. These are the errors a
    request can come back with. *)
Inductive Failure :=
| ConstraintViolation
| NetworkFailure
| Thrown (msg : option string).

(** [err?.message] *)
Definition message (e : Failure) : option string :=
  match e with
  | ConstraintViolation =>
      Some "duplicate key value violates unique constraint"
  | NetworkFailure => Some "Failed to fetch"
  | Thrown msg => msg
  end.

Inductive RemoteCall :=
| DeleteRow (i : string)
| DeleteRows (l : list string)
| RemoveObjects (b : string) (ps : list string)
| SelectRows
| UpdatePosition (i : string) (p : Z)
| InsertFavorite (l : string)
| DeleteFavorite (l : string).

#[global] Instance RemoteCall_eq_dec : EqDecision RemoteCall.
Proof. solve_decision. Defined.

(** Modelled from the spec: the state of the remote store. The image rows
    of the listing, the listings the signed-in user has
    saved (the [favorites] rows, [UNIQUE (user_id, listing_id)]), the
    requests issued so far (oldest first, each with the
    error it came back with, if any), and the transport plan: the head says
    whether the next request is lost ([true]); an exhausted plan loses
    nothing. *)
Record Remote := mkRemote {
  table : list ExistingImage;
  favorites : gset string;
  issued : list (RemoteCall * option Failure);
  plan : list bool
}.

Definition lossless (w : Remote) : Prop := Forall (λ b, b = false) (plan w).

Definition reliable (t : list ExistingImage) : Remote :=
  {| table := t; favorites := ∅; issued := []; plan := [] |}.

Inductive Outcome (A : Type) :=
| Resolved (a : A)
| Rejected (e : Failure).
Arguments Resolved {A} a.
Arguments Rejected {A} e.

(** An awaited computation: it threads the remote state and either
    resolves or rejects; a rejection skips the rest ([throw]). *)
Definition Async (A : Type) : Type := Remote → Remote * Outcome A.

Definition resolve {A} (a : A) : Async A := λ w, (w, Resolved a).
Definition throw {A} (e : Failure) : Async A := λ w, (w, Rejected e).
Definition await {A B} (m : Async A) (k : A → Async B) : Async B :=
  λ w, match m w with
       | (w', Resolved a) => k a w'
       | (w', Rejected e) => (w', Rejected e)
       end.

Notation "'let!' x := m 'in' k" := (await m (λ x, k))
  (at level 10, x pattern, m at level 100, k at level 200).
Notation "'do!' m 'in' k" := (await m (λ _, k))
  (at level 10, m at level 100, k at level 200).

(** One request: it is logged, consumes one entry of the plan, and is
    served on the rows unless lost. *)
Definition request_on {T A} (get : Remote → T) (put : T → Remote → Remote)
    (c : RemoteCall) (serve : T → Outcome (T * A)) : Async A :=
  λ w,
    let log e w' :=
      {| table := table w'; favorites := favorites w';
         issued := issued w ++ [(c, e)]; plan := tail (plan w) |} in
    if default false (head (plan w))
    then (log (Some NetworkFailure) w, Rejected NetworkFailure)
    else match serve (get w) with
         | Resolved (t', a) => (log None (put t' w), Resolved a)
         | Rejected e => (log (Some e) w, Rejected e)
         end.

Definition put_table (t : list ExistingImage) (w : Remote) : Remote :=
  {| table := t; favorites := favorites w;
     issued := issued w; plan := plan w |}.
Definition put_favorites (f : gset string) (w : Remote) : Remote :=
  {| table := table w; favorites := f;
     issued := issued w; plan := plan w |}.

(** A request against [listing_images]. *)
Definition request {A} (c : RemoteCall)
    (serve : list ExistingImage → Outcome (list ExistingImage * A))
  : Async A :=
  request_on table put_table c serve.

(** [const { error } = await m; if (error) console.warn(...)]: the
    failure of a best-effort request is logged and dropped. *)
Definition best_effort {A} (m : Async A) : Async unit :=
  λ w, ((m w).1, Resolved tt).

(** Blind row update: [position := p] where [id = i]. *)
Definition set_position_of (i : string) (p : Z) (t : list ExistingImage)
  : list ExistingImage :=
  (λ r, if bool_decide (id r = i) then with_position p r else r) <$> t.

(** The write would put row [i] on a position another row holds. *)
Definition collides (i : string) (p : Z) (t : list ExistingImage) : bool :=
  bool_decide (i ∈ ids t) &&
  bool_decide (Exists (λ r, id r ≠ i ∧ position r = p) t).

(** [.update({ position: p }).eq("id", i)] *)
Definition db_update (i : string) (p : Z) : Async unit :=
  request (UpdatePosition i p)
    (λ t, if collides i p t then Rejected ConstraintViolation
          else Resolved (set_position_of i p t, tt)).

(** [.delete().eq("id", i)] *)
Definition db_delete (i : string) : Async unit :=
  request (DeleteRow i)
    (λ t, Resolved (filter (λ r, id r ≠ i) t, tt)).

(** [.delete().in("id", l)] *)
Definition db_delete_in (l : list string) : Async unit :=
  request (DeleteRows l)
    (λ t, Resolved (filter (λ r, id r ∉ l) t, tt)).

(** [.select(...).eq("listing_id", listingId).order("position")]; the
    callers read only [id] of the rows returned. *)
Definition db_select : Async (list ExistingImage) :=
  request SelectRows (λ t, Resolved (t, sortByPosition t)).

(** [storage.from(b).remove(ps)]: object storage, no rows involved. *)
Definition storage_remove (b : string) (ps : list string) : Async unit :=
  request (RemoveObjects b ps) (λ t, Resolved (t, tt)).

(** [.from("favorites").insert({ user_id, listing_id: l })] *)
Definition fav_insert (l : string) : Async unit :=
  request_on favorites put_favorites (InsertFavorite l)
    (λ f, if bool_decide (l ∈ f) then Rejected ConstraintViolation
          else Resolved (f ∪ {[l]}, tt)).

(** [.from("favorites").delete().eq("user_id", u).eq("listing_id", l)] *)
Definition fav_delete (l : string) : Async unit :=
  request_on favorites put_favorites (DeleteFavorite l)
    (λ f, Resolved (f ∖ {[l]}, tt)).

(** A list of position writes applied without any check; the same list as
    accepted requests; and writing them one after the other. *)
Definition apply_writes (ws : list (string * Z)) (t : list ExistingImage)
  : list ExistingImage :=
  foldl (λ acc w, set_position_of w.1 w.2 acc) t ws.

Definition accepted (ws : list (string * Z))
  : list (RemoteCall * option Failure) :=
  (λ w, (UpdatePosition w.1 w.2, None)) <$> ws.

Fixpoint write_all (ws : list (string * Z)) : Async unit :=
  match ws with
  | [] => resolve tt
  | w :: rest => do! db_update w.1 w.2 in write_all rest
  end.

(** ** The query cache entry and the component state

    [cache] is [qc.getQueryData(["listing-images", listingId])]
    ([None] for [undefined]); [errorMsg] is the component's error banner;
    [invalidated] records [qc.invalidateQueries]. *)
Record Ui := mkUi {
  cache : option (list ExistingImage);
  errorMsg : option string;
  invalidated : bool
}.

(** The context [{ prev }] returned by [onMutate]. *)
Record Ctx := mkCtx { prev : list ExistingImage }.

Definition setQueryData (v : list ExistingImage) (ui : Ui) : Ui :=
  {| cache := Some v; errorMsg := errorMsg ui; invalidated := invalidated ui |}.
Definition setErrorMsg (m : option string) (ui : Ui) : Ui :=
  {| cache := cache ui; errorMsg := m; invalidated := invalidated ui |}.
Definition invalidateQueries (ui : Ui) : Ui :=
  {| cache := cache ui; errorMsg := errorMsg ui; invalidated := true |}.

(** [for (let i = 0; i < rows.length; i++)
      update({ position: offset + i }).eq("id", rows[i].id)],
    stopping at the first rejected write. *)
Fixpoint write_from (offset : Z) (i : nat) (rows : list ExistingImage)
  : Async unit :=
  match rows with
  | [] => resolve tt
  | r :: rest =>
      do! db_update (id r) (offset + Z.of_nat i) in
      write_from offset (S i) rest
  end.

Definition write_phase (offset : Z) (rows : list ExistingImage) : Async unit :=
  write_from offset 0 rows.

(** Phase 1 then phase 2 over the rows in their final order. *)
Definition two_phase (rows : list ExistingImage) : Async unit :=
  do! write_phase 1000 rows in
  write_phase 0 rows.

(** The writes the two phases issue when none is rejected. *)
Definition phase_writes (offset : Z) (rows : list ExistingImage)
  : list (string * Z) :=
  imap (λ i r, (id r, (offset + Z.of_nat i)%Z)) rows.

Definition two_phase_writes (rows : list ExistingImage) : list (string * Z) :=
  phase_writes 1000 rows ++ phase_writes 0 rows.

(** *** The optimistic uploader (delete, reorder and set cover update the
    cache first and roll it back on error) *)
Module Uploader.

(** [const temp = -999999] *)
Definition temp : Z := (-999999)%Z.

(** [Math.max(...existingSorted.map(img => img.position)) + 1], or [0]. *)
Definition startPos (existingSorted : list ExistingImage) : Z :=
  match existingSorted with
  | [] => 0%Z
  | x :: xs => (foldr Z.max (position x) (positions xs) + 1)%Z
  end.

(** Positions given to [k] uploaded files: [startPos + i]. *)
Definition uploadedPositions (existingSorted : list ExistingImage)
    (k : nat) : list Z :=
  (λ i, (startPos existingSorted + Z.of_nat i)%Z) <$> seq 0 k.

(** [deleteMutation.mutationFn] *)
Definition deleteMutation_fn (img : ExistingImage) : Async unit :=
  do! db_delete (id img) in
  do! best_effort (storage_remove (bucket img) [path img]) in
  let! rows := db_select in
  two_phase rows.

(** [deleteMutation.onMutate] *)
Definition deleteMutation_onMutate (img : ExistingImage) (ui : Ui)
  : Ui * Ctx :=
  let ui := setErrorMsg None ui in
  let prev := default [] (cache ui) in
  let next := normalizePositions (filter (λ x, id x ≠ id img) prev) in
  (setQueryData next ui, {| prev := prev |}).

(** The three [onError] handlers differ only in the fallback text. *)
Definition onError (fallback : string) (err : Failure) (ctx : option Ctx)
    (ui : Ui) : Ui :=
  let ui := match ctx with
            | Some c => setQueryData (prev c) ui
            | None => ui
            end in
  setErrorMsg (Some (default fallback (message err))) ui.

Definition deleteMutation_onError := onError "Delete failed".
Definition reorderMutation_onError := onError "Reorder failed".
Definition setCoverMutation_onError := onError "Set cover failed".

(** [onSuccess]: both invalidations, seen from this cache entry. *)
Definition onSuccess (ui : Ui) : Ui := invalidateQueries ui.

(** [reorderMutation.mutationFn] *)
Definition reorderMutation_fn (a b : ExistingImage) : Async unit :=
  do! db_update (id a) temp in
  do! db_update (id b) (position a) in
  db_update (id a) (position b).

(** [reorderMutation.onMutate] *)
Definition reorderMutation_onMutate (a b : ExistingImage) (ui : Ui)
  : Ui * Ctx :=
  let ui := setErrorMsg None ui in
  let prev := default [] (cache ui) in
  let next :=
    (λ img,
       if bool_decide (id img = id a) then with_position (position b) img
       else if bool_decide (id img = id b)
            then with_position (position a) img
            else img) <$> prev in
  (setQueryData (sortByPosition next) ui, {| prev := prev |}).

(** [setCoverMutation.mutationFn] *)
Definition setCoverMutation_fn (img : ExistingImage) : Async unit :=
  let! rows := db_select in
  let idx := findIndex (id img) rows in
  if bool_decide (idx ≤ 0)%Z then resolve tt
  else
    let reordered := move_to_front (Z.to_nat idx) rows in
    two_phase reordered.

(** [setCoverMutation.onMutate] *)
Definition setCoverMutation_onMutate (img : ExistingImage) (ui : Ui)
  : Ui * Ctx :=
  let ui := setErrorMsg None ui in
  let prev := default [] (cache ui) in
  let sorted := sortByPosition prev in
  let idx := findIndex (id img) sorted in
  if bool_decide (idx ≤ 0)%Z then (ui, {| prev := prev |})
  else
    let reordered := move_to_front (Z.to_nat idx) sorted in
    let next := normalizePositions reordered in
    (setQueryData next ui, {| prev := prev |}).

(** One mutation run on its own: [onMutate], then the mutation function,
    then [onSuccess] or [onError]; the mutation function runs once. *)
Definition run (onMutate : Ui → Ui * Ctx) (fn : Async unit)
    (onErr : Failure → option Ctx → Ui → Ui) (s : Ui * Remote)
  : Ui * Remote * Outcome unit :=
  let '(ui1, ctx) := onMutate s.1 in
  match fn s.2 with
  | (w', Resolved r) => (onSuccess ui1, w', Resolved r)
  | (w', Rejected e) => (onErr e (Some ctx) ui1, w', Rejected e)
  end.

Definition deleteMutation (img : ExistingImage) :=
  run (deleteMutation_onMutate img) (deleteMutation_fn img)
      deleteMutation_onError.
Definition reorderMutation (a b : ExistingImage) :=
  run (reorderMutation_onMutate a b) (reorderMutation_fn a b)
      reorderMutation_onError.
Definition setCoverMutation (img : ExistingImage) :=
  run (setCoverMutation_onMutate img) (setCoverMutation_fn img)
      setCoverMutation_onError.

(** [filename.split(".")] *)
Fixpoint split_dot (filename : string) : list string :=
  match filename with
  | EmptyString => [EmptyString]
  | String c rest =>
      if Ascii.eqb c "."%char then EmptyString :: split_dot rest
      else match split_dot rest with
           | part :: parts => String c part :: parts
           | [] => [String c EmptyString]
           end
  end.

(** [getFileExt]: [parts.length > 1 ? parts.pop()!.toLowerCase() : "jpg"];
    [toLowerCase] is the string method of the runtime. *)
Definition getFileExt (toLowerCase : string → string) (filename : string)
  : string :=
  let parts := split_dot filename in
  if bool_decide (1 < length parts)
  then toLowerCase (default EmptyString (last parts))
  else "jpg".

(** [safeImageExt]: [allowed.has(ext) ? ext : "jpg"] *)
Definition safeImageExt (ext : string) : string :=
  if bool_decide (ext ∈ ["jpg"; "jpeg"; "png"; "webp"; "gif"]) then ext
  else "jpg".

End Uploader.

(** *** The plain uploader ([ListingImageUploader.tsx]): no optimistic
    update; its reorder and set-cover functions are those above, its delete
    stops after the storage removal. *)
Module PlainUploader.

Definition deleteMutation_fn (img : ExistingImage) : Async unit :=
  do! db_delete (id img) in
  best_effort (storage_remove (bucket img) [path img]).

Definition deleteMutation_onError (err : Failure) (ui : Ui) : Ui :=
  setErrorMsg (Some (default "Delete failed" (message err))) ui.

End PlainUploader.

(** *** The edit form ([ListingForm.tsx]) *)
Module ListingForm.

(** [next.splice(toIdx, 0, it)] *)
Definition splice_in {A} (i : nat) (x : A) (l : list A) : list A :=
  take i l ++ x :: drop i l.

(** [moveExisting(from, to)] on the [existingImages] state. *)
Definition moveExisting (deletedImageIds : list string) (from to : nat)
    (prev : list ExistingImage) : list ExistingImage :=
  let visibleIdxs :=
    snd <$> filter (λ xi, id xi.1 ∉ deletedImageIds)
                   (imap (λ i x, (x, i)) prev) in
  match visibleIdxs !! from, visibleIdxs !! to with
  | Some fromIdx, Some toIdx =>
      match prev !! fromIdx with
      | Some it => splice_in toIdx it (delete fromIdx prev)
      | None => prev
      end
  | _, _ => prev
  end.

(** [remaining.map((img, idx) => ({ id: img.id, position: idx }))] *)
Definition positionUpdates (deletedImageIds : list string)
    (existingImages : list ExistingImage) : list (string * Z) :=
  let remaining :=
    filter (λ x, id x ∉ deletedImageIds) existingImages in
  imap (λ idx img, (id img, Z.of_nat idx)) remaining.

(** [updateImagePositions(rows)]: one update per row, in order. *)
Fixpoint updateImagePositions (rows : list (string * Z)) : Async unit :=
  match rows with
  | [] => resolve tt
  | r :: rest => do! db_update r.1 r.2 in updateImagePositions rest
  end.

(** Steps 2 and 3 of the edit branch of the form's mutation function:
    delete the removed rows and their objects, then renumber the rest
    in state order. *)
Definition saveExistingImages (deletedImageIds : list string)
    (existingImages : list ExistingImage) : Async unit :=
  do! (if bool_decide (deletedImageIds = []) then resolve tt
       else
         let toDelete :=
           filter (λ x, id x ∈ deletedImageIds) existingImages in
         do! db_delete_in deletedImageIds in
         let paths :=
           path <$> filter (λ x, bucket x = "car-images") toDelete in
         if bool_decide (paths = []) then resolve tt
         else storage_remove "car-images" paths) in
  updateImagePositions (positionUpdates deletedImageIds existingImages).

(** [filename.lastIndexOf(".")], [-1] when there is no dot. *)
Fixpoint lastIndexOf_dot (filename : string) : Z :=
  match filename with
  | EmptyString => (-1)%Z
  | String c rest =>
      let i := lastIndexOf_dot rest in
      if bool_decide (0 ≤ i)%Z then (i + 1)%Z
      else if Ascii.eqb c "."%char then 0%Z else (-1)%Z
  end.

(** [filename.slice(n)] for [n ≥ 0] *)
Fixpoint slice (n : nat) (filename : string) : string :=
  match n, filename with
  | 0, _ => filename
  | S _, EmptyString => EmptyString
  | S n, String _ rest => slice n rest
  end.

(** [getFileExt]: [i < 0 ? "jpg" : filename.slice(i + 1).toLowerCase()] *)
Definition getFileExt (toLowerCase : string → string) (filename : string)
  : string :=
  let i := lastIndexOf_dot filename in
  if bool_decide (i < 0)%Z then "jpg"
  else toLowerCase (slice (Z.to_nat (i + 1)) filename).

(** [safeImageExt]: [ALLOWED_EXT.has(ext) ? ext : "jpg"] *)
Definition safeImageExt (ext : string) : string :=
  if bool_decide (ext ∈ ["jpg"; "jpeg"; "png"; "webp"]) then ext
  else "jpg".

End ListingForm.

(** *** The uploader's buttons

    Delete, the two move arrows and "Set cover" share the cache entry of the
    listing. Each button is disabled by the pending flag of its own
    mutation (the arrows by [anyReorderBusy]); the component re-renders
    after every event, so the flags seen by a click are current. *)
Module Session.

Inductive Kind := Delete | Reorder | SetCover.

#[global] Instance Kind_eq_dec : EqDecision Kind.
Proof. solve_decision. Defined.

Inductive Action :=
| ClickDelete (img : ExistingImage)
| ClickMove (a b : ExistingImage)
| ClickSetCover (img : ExistingImage)
| Settle (k : Kind) (r : Outcome unit).

(** The cache and banner, and the context held by every mutation in
    flight, oldest first. *)
Record t := mk {
  ui : Ui;
  pending : list (Kind * Ctx)
}.

Definition isPending (k : Kind) (s : t) : bool :=
  bool_decide (k ∈ (pending s).*1).

Definition start (k : Kind) (onMutate : Ui → Ui * Ctx) (s : t) : t :=
  let '(ui', ctx) := onMutate (ui s) in
  {| ui := ui'; pending := pending s ++ [(k, ctx)] |}.

Definition onError (k : Kind) : Failure → option Ctx → Ui → Ui :=
  match k with
  | Delete => Uploader.deleteMutation_onError
  | Reorder => Uploader.reorderMutation_onError
  | SetCover => Uploader.setCoverMutation_onError
  end.

(** The context of the pending mutation [k], if there is one. *)
Definition context (k : Kind) (s : t) : option Ctx :=
  snd <$> head (filter (λ e, e.1 = k) (pending s)).

(** The mutation a click starts, and the [disabled] attribute of its
    button. *)
Definition starts (a : Action) : option Kind :=
  match a with
  | ClickDelete _ => Some Delete
  | ClickMove _ _ => Some Reorder
  | ClickSetCover _ => Some SetCover
  | Settle _ _ => None
  end.

Definition disabled (a : Action) (s : t) : bool :=
  match a with
  | ClickDelete _ => isPending Delete s
  | ClickMove _ _ => isPending Reorder s || isPending SetCover s
  | ClickSetCover _ => isPending SetCover s
  | Settle _ _ => false
  end.

Definition settles (k : Kind) (a : Action) : Prop :=
  match a with
  | Settle k' _ => k' = k
  | _ => False
  end.

Definition step (a : Action) (s : t) : t :=
  if disabled a s then s
  else
    match a with
    | ClickDelete img =>
        start Delete (Uploader.deleteMutation_onMutate img) s
    | ClickMove a b =>
        start Reorder (Uploader.reorderMutation_onMutate a b) s
    | ClickSetCover img =>
        start SetCover (Uploader.setCoverMutation_onMutate img) s
    | Settle k r =>
        match context k s with
        | None => s
        | Some ctx =>
            {| ui := match r with
                     | Resolved _ => Uploader.onSuccess (ui s)
                     | Rejected e => onError k e (Some ctx) (ui s)
                     end;
               pending := filter (λ e, e.1 ≠ k) (pending s) |}
        end
    end.

Definition steps (l : list Action) (s : t) : t := foldl (flip step) s l.

Definition idle (c : list ExistingImage) : t :=
  {| ui := {| cache := Some c; errorMsg := None; invalidated := false |};
     pending := [] |}.

End Session.

(** *** The listings page: the favorite toggle *)
Module ListingsPage.

(** The context [{ prev }] of the toggle. *)
Record FavCtx := mkFavCtx { prev : option (gset string) }.

(** [favCache] is [qc.getQueryData(favKey)]; [favSet] and [isPending]
    are the query data and the mutation flag as of the last render;
    [running] holds the context and the awaited outcome of the toggle in
    flight; [shown] is the error text the page displays. *)
Record Page := mkPage {
  userId : option string;
  favCache : option (gset string);
  favSet : option (gset string);
  isPending : bool;
  running : option (FavCtx * Outcome unit);
  shown : option string;
  backend : Remote
}.

(** [toggleFavorite.mutationFn] *)
Definition toggleFavorite_fn (userId : option string)
    (favSet : option (gset string)) (listingId : string) : Async unit :=
  match userId with
  | None => throw (Thrown (Some "Please log in to save favorites."))
  | Some _ =>
      let isFav :=
        match favSet with
        | Some s => bool_decide (listingId ∈ s)
        | None => false
        end in
      if isFav then fav_delete listingId else fav_insert listingId
  end.

(** [toggleFavorite.onMutate] *)
Definition toggleFavorite_onMutate (listingId : string)
    (favCache favSet : option (gset string))
  : option (gset string) * FavCtx :=
  let prev := favCache in
  let next :=
    match prev with
    | Some s => s
    | None => default ∅ favSet
    end in
  let next :=
    if bool_decide (listingId ∈ next) then next ∖ {[listingId]}
    else next ∪ {[listingId]} in
  (Some next, {| prev := prev |}).

(** [toggleFavorite.onError]: [if (ctx?.prev) qc.setQueryData(...)] *)
Definition toggleFavorite_onError (ctx : option FavCtx)
    (favCache : option (gset string)) : option (gset string) :=
  match ctx with
  | Some {| prev := Some p |} => Some p
  | _ => favCache
  end.

Inductive Action := Click (listingId : string) | Settle.

(** The button is [disabled={!userId || toggleFavorite.isPending}]. *)
Definition disabled (pg : Page) : bool :=
  bool_decide (userId pg = None) || isPending pg.

Definition step (a : Action) (pg : Page) : Page :=
  match a with
  | Click listingId =>
      if disabled pg then pg
      else
        let '(c, ctx) :=
          toggleFavorite_onMutate listingId (favCache pg) (favSet pg) in
        let '(w, out) :=
          toggleFavorite_fn (userId pg) (favSet pg) listingId
                            (backend pg) in
        {| userId := userId pg; favCache := c; favSet := c;
           isPending := true; running := Some (ctx, out);
           shown := shown pg; backend := w |}
  | Settle =>
      match running pg with
      | None => pg
      | Some (ctx, out) =>
          let c := match out with
                   | Resolved _ => favCache pg
                   | Rejected _ =>
                       toggleFavorite_onError (Some ctx) (favCache pg)
                   end in
          {| userId := userId pg; favCache := c; favSet := c;
             isPending := false; running := None;
             shown := shown pg; backend := backend pg |}
      end
  end.

Definition steps (l : list Action) (pg : Page) : Page :=
  foldl (flip step) pg l.

(** A rendered page with nothing in flight: the cache holds [c], the
    user has saved [saved]. *)
Definition at_rest (u : string) (c : option (gset string))
    (saved : gset string) (plan : list bool) : Page :=
  {| userId := Some u; favCache := c; favSet := c; isPending := false;
     running := None; shown := None;
     backend := {| table := []; favorites := saved;
                   issued := []; plan := plan |} |}.

(** [const PAGE_SIZE = 25]. Page numbers and the row count are whole
    numbers here; a fractional [?page=] in the URL is outside the model. *)
Definition PAGE_SIZE : Z := 25%Z.

(** [clamp(n, min, max) = Math.max(min, Math.min(max, n))] *)
Definition clamp (n min max : Z) : Z := Z.max min (Z.min max n).

(** [Math.max(1, Math.ceil(total / PAGE_SIZE))], [total] being the row
    count returned with the page. *)
Definition totalPages (total : Z) : Z :=
  Z.max 1 (- ((- total) / PAGE_SIZE))%Z.

(** [from = (page - 1) * PAGE_SIZE; to = from + PAGE_SIZE - 1], the bounds
    passed to [q.range(from, to)] (both inclusive). *)
Definition range (page : Z) : Z * Z :=
  let from := ((page - 1) * PAGE_SIZE)%Z in
  (from, (from + PAGE_SIZE - 1)%Z).

(** [goToPage(p)]: the page written to the URL. *)
Definition goToPage (total p : Z) : Z := clamp p 1 (totalPages total).

(** The card's picture: [images[0]] of the images sorted by position. *)
Definition cover (images : list ExistingImage) : option ExistingImage :=
  head (sortByPosition images).

End ListingsPage.

(** ** Vocabulary of the statements *)

Definition le_position (a b : ExistingImage) : Prop :=
  (position a ≤ position b)%Z.

#[global] Instance le_position_dec a b : Decision (le_position a b).
Proof. unfold le_position. apply _. Defined.

(** The row keeps everything but its position, which becomes [φ j] when
    its id is the one at index [j] of [rows]. *)
Definition assign (φ : nat → Z) (rows : list ExistingImage)
    (r : ExistingImage) : ExistingImage :=
  match list_find (λ x, id x = id r) rows with
  | Some (j, _) => with_position (φ j) r
  | None => r
  end.

Definition shifted (offset : Z) (j : nat) : Z := (offset + Z.of_nat j)%Z.

(** Exchange the positions of the rows [a] and [b]. *)
Definition swapped (a b : ExistingImage) (t : list ExistingImage)
  : list ExistingImage :=
  (λ r, if bool_decide (id r = id a) then with_position (position b) r
        else if bool_decide (id r = id b) then with_position (position a) r
        else r) <$> t.


(** The three optimistic image mutations. *)
Inductive ImageMutation :=
| DeleteImage (img : ExistingImage)
| SwapImages (a b : ExistingImage)
| CoverImage (img : ExistingImage).

Definition mutationFn (m : ImageMutation) : Async unit :=
  match m with
  | DeleteImage img => Uploader.deleteMutation_fn img
  | SwapImages a b => Uploader.reorderMutation_fn a b
  | CoverImage img => Uploader.setCoverMutation_fn img
  end.


Definition fallback (m : ImageMutation) : string :=
  match m with
  | DeleteImage _ => "Delete failed"
  | SwapImages _ _ => "Reorder failed"
  | CoverImage _ => "Set cover failed"
  end.

(** Three images of one listing, in the settled order [X, Y, Z]. *)
Definition imgX : ExistingImage := mkImage "X" "car-images" "listings/L/x.jpg" 0.
Definition imgY : ExistingImage := mkImage "Y" "car-images" "listings/L/y.jpg" 1.
Definition imgZ : ExistingImage := mkImage "Z" "car-images" "listings/L/z.jpg" 2.

Definition loaded (c : list ExistingImage) : Ui :=
  {| cache := Some c; errorMsg := None; invalidated := false |}.

(** The favorite buttons on a results page belong to the listings of that
    page; [favSet] is fetched for those listings only. *)
Definition on_page (page : gset string) (a : ListingsPage.Action) : Prop :=
  match a with
  | ListingsPage.Click l => l ∈ page
  | ListingsPage.Settle => True
  end.

(** The cached set agrees with the saved favorites among the listings of the
    page; while a toggle is in flight the cache holds what the store will
    hold if the request went through, and the context what it holds if it
    did not. *)
Definition tracks (page : gset string) (pg : ListingsPage.Page) : Prop :=
  ListingsPage.userId pg ≠ None
  ∧ ListingsPage.favSet pg = ListingsPage.favCache pg
  ∧ match ListingsPage.running pg with
    | None =>
        ListingsPage.isPending pg = false
        ∧ ListingsPage.favCache pg
          = Some (favorites (ListingsPage.backend pg) ∩ page)
    | Some (_, Resolved _) =>
        ListingsPage.isPending pg = true
        ∧ ListingsPage.favCache pg
          = Some (favorites (ListingsPage.backend pg) ∩ page)
    | Some (ctx, Rejected _) =>
        ListingsPage.isPending pg = true
        ∧ ListingsPage.prev ctx
          = Some (favorites (ListingsPage.backend pg) ∩ page)
    end.

(** A computation consumes the answers of the network in order and
    nothing else of the plan. *)
Definition spends_plan {A} (m : Async A) : Prop :=
  ∀ w, ∃ k, plan (m w).1 = drop k (plan w).

(** The rows of a listing as the uploader means to keep them: one row per
    id, positions [0 .. n-1], and fewer rows than the offset of phase 1. *)
Definition well_kept (t : list ExistingImage) : Prop :=
  NoDup (ids t) ∧ gapless t ∧ length t ≤ 1000.

(** The two rows handed to a move are different rows of the listing, as
    they are stored; delete and set cover take any image. *)
Definition applies (m : ImageMutation) (t : list ExistingImage) : Prop :=
  match m with
  | SwapImages a b => a ∈ t ∧ b ∈ t ∧ id a ≠ id b
  | _ => True
  end.

(** Mutation functions awaited one after the other; the first rejection
    ends the sequence. *)
Fixpoint mutationFns (ms : list ImageMutation) : Async unit :=
  match ms with
  | [] => resolve tt
  | m :: rest => do! mutationFn m in mutationFns rest
  end.

(** Every mutation of the sequence applies to the rows it finds. *)
Fixpoint applicable (ms : list ImageMutation) (w : Remote) : Prop :=
  match ms with
  | [] => True
  | m :: rest => applies m (table w) ∧ applicable rest (mutationFn m w).1
  end.

(** * Properties *)

(** ** Sorting *)

Section sorting.
Implicit Types (x y : ExistingImage) (l : list ExistingImage).

Lemma insert_by_position_perm x l : insert_by_position x l ≡ₚ x :: l.
Proof.
  induction l as [|y l IH]; simpl; [done|].
  case_bool_decide; [done|]. by rewrite IH, Permutation_swap.
Qed.

Lemma sortByPosition_perm l : sortByPosition l ≡ₚ l.
Proof.
  induction l as [|x l IH]; simpl; [done|].
  by rewrite insert_by_position_perm, IH.
Qed.

Lemma sortByPosition_length l : length (sortByPosition l) = length l.
Proof. by rewrite sortByPosition_perm. Qed.

Lemma insert_by_position_front x l :
  Forall (le_position x) l → insert_by_position x l = x :: l.
Proof.
  destruct 1 as [|y l Hy _]; simpl; [done|].
  by rewrite bool_decide_eq_true_2.
Qed.

Lemma insert_by_position_sorted x l :
  StronglySorted le_position l →
  StronglySorted le_position (insert_by_position x l).
Proof.
  induction 1 as [|y l Hl IH Hy]; simpl.
  { repeat constructor. }
  case_bool_decide as Hxy.
  - constructor; [by constructor|]. constructor; [done|].
    eapply Forall_impl; [exact Hy|]. unfold le_position in *. intros; lia.
  - constructor; [done|]. rewrite insert_by_position_perm.
    constructor; [|done]. unfold le_position. lia.
Qed.

Lemma sortByPosition_sorted l : StronglySorted le_position (sortByPosition l).
Proof.
  induction l; simpl; [constructor|by apply insert_by_position_sorted].
Qed.

(** A stable sort leaves a sorted list as it is. *)
Lemma sortByPosition_id l :
  StronglySorted le_position l → sortByPosition l = l.
Proof.
  induction 1 as [|x l Hl IH Hx]; simpl; [done|].
  rewrite IH. by apply insert_by_position_front.
Qed.

Lemma sortByPosition_idemp l :
  sortByPosition (sortByPosition l) = sortByPosition l.
Proof. apply sortByPosition_id, sortByPosition_sorted. Qed.

(** Filtering commutes with the stable sort. *)
Lemma insert_by_position_filter_in (P : ExistingImage → Prop)
    `{!∀ x, Decision (P x)} x l :
  StronglySorted le_position l → P x →
  insert_by_position x (filter P l) = filter P (insert_by_position x l).
Proof.
  intros Hl HP. induction Hl as [|y l Hl IH Hy]; simpl.
  { by rewrite filter_cons_True. }
  case_bool_decide as Hxy.
  - rewrite (filter_cons_True P x) by done.
    apply insert_by_position_front.
    assert (Forall (le_position x) (y :: l)) as Hall.
    { constructor; [done|]. eapply Forall_impl; [exact Hy|].
      unfold le_position in *. intros; lia. }
    rewrite Forall_forall in Hall. apply Forall_forall.
    intros z [_ Hz]%list_elem_of_filter. by apply Hall.
  - destruct (decide (P y)).
    + rewrite !(filter_cons_True P y) by done. simpl.
      rewrite bool_decide_eq_false_2 by done. by rewrite IH.
    + by rewrite !(filter_cons_False P y) by done.
Qed.

Lemma insert_by_position_filter_out (P : ExistingImage → Prop)
    `{!∀ x, Decision (P x)} x l :
  ¬ P x → filter P (insert_by_position x l) = filter P l.
Proof.
  intros HP. induction l as [|y l IH]; simpl.
  { by rewrite filter_cons_False. }
  case_bool_decide.
  - by rewrite (filter_cons_False P x).
  - destruct (decide (P y)).
    + rewrite !(filter_cons_True P y) by done. by rewrite IH.
    + by rewrite !(filter_cons_False P y) by done.
Qed.

Lemma sortByPosition_filter (P : ExistingImage → Prop)
    `{!∀ x, Decision (P x)} l :
  sortByPosition (filter P l) = filter P (sortByPosition l).
Proof.
  induction l as [|x l IH]; simpl; [done|].
  destruct (decide (P x)).
  - rewrite filter_cons_True by done. simpl. rewrite IH.
    apply insert_by_position_filter_in; [apply sortByPosition_sorted|done].
  - rewrite filter_cons_False by done.
    by rewrite insert_by_position_filter_out.
Qed.

(** With pairwise distinct positions the sorted order is unique. *)
Lemma sorted_unique l1 l2 :
  NoDup (positions l1) →
  StronglySorted le_position l1 → StronglySorted le_position l2 →
  l1 ≡ₚ l2 → l1 = l2.
Proof.
  intros Hnd H1 H2 Hp.
  apply (StronglySorted_unique_strong le_position); [|done..].
  intros x1 x2 Hx1 Hx2 H12 H21. rewrite <-Hp in Hx2.
  unfold le_position in *.
  apply list_elem_of_lookup in Hx1 as [i Hi].
  apply list_elem_of_lookup in Hx2 as [j Hj].
  assert (i = j) as ->; [|congruence].
  eapply NoDup_lookup; [exact Hnd| |];
    unfold positions; rewrite list_lookup_fmap.
  - by rewrite Hi.
  - rewrite Hj. simpl. f_equal. lia.
Qed.

Lemma sortByPosition_unique l l' :
  NoDup (positions l') → StronglySorted le_position l' → l ≡ₚ l' →
  sortByPosition l = l'.
Proof.
  intros Hnd Hs Hp. symmetry. apply sorted_unique; [done..| |].
  - apply sortByPosition_sorted.
  - by rewrite sortByPosition_perm.
Qed.
End sorting.

(** ** Renumbering *)

Section renumbering.
Implicit Types (x y : ExistingImage) (l : list ExistingImage).

Lemma positions_renumber l :
  positions (renumber l) = Z.of_nat <$> seq 0 (length l).
Proof.
  unfold positions, renumber. rewrite fmap_imap.
  rewrite <-(imap_seq_0 l Z.of_nat). by apply imap_ext.
Qed.

Lemma ids_renumber l : ids (renumber l) = ids l.
Proof.
  unfold ids, renumber. rewrite fmap_imap.
  rewrite <-(imap_const id l). by apply imap_ext.
Qed.

Lemma length_renumber l : length (renumber l) = length l.
Proof. apply length_imap. Qed.

Lemma renumber_settled l : settled (renumber l).
Proof. unfold settled. by rewrite positions_renumber, length_renumber. Qed.

Lemma with_position_same x : with_position (position x) x = x.
Proof. by destruct x. Qed.

Lemma settled_lookup l i x :
  settled l → l !! i = Some x → position x = Z.of_nat i.
Proof.
  intros Hs Hi. assert (positions l !! i = Some (position x)) as Hp.
  { unfold positions. by rewrite list_lookup_fmap, Hi. }
  rewrite Hs, list_lookup_fmap in Hp.
  apply lookup_lt_Some in Hi.
  rewrite lookup_seq_lt in Hp by done. simpl in Hp. congruence.
Qed.

Lemma renumber_of_settled l : settled l → renumber l = l.
Proof.
  intros Hs. apply list_eq. intros i. unfold renumber.
  rewrite list_lookup_imap. destruct (l !! i) as [x|] eqn:Hi; [|done].
  simpl. rewrite <-(settled_lookup l i x) by done.
  by rewrite with_position_same.
Qed.

Lemma sorted_of_positions l :
  StronglySorted Z.le (positions l) → StronglySorted le_position l.
Proof.
  induction l as [|x l IH]; [constructor|].
  unfold positions in *. rewrite fmap_cons.
  intros [Hl Hx]%StronglySorted_inv. constructor; [by apply IH|].
  rewrite Forall_fmap in Hx. exact Hx.
Qed.

Lemma seq_sorted i n : StronglySorted Z.le (Z.of_nat <$> seq i n).
Proof.
  revert i. induction n as [|n IH]; intros i; simpl; [constructor|].
  constructor; [apply IH|]. rewrite Forall_fmap, Forall_seq.
  intros j ?. simpl. lia.
Qed.

Lemma seq_NoDup n : NoDup (Z.of_nat <$> seq 0 n).
Proof. apply (NoDup_fmap_2 _), NoDup_seq. Qed.

Lemma settled_sorted l : settled l → StronglySorted le_position l.
Proof. intros Hs. apply sorted_of_positions. rewrite Hs. apply seq_sorted. Qed.

Lemma settled_NoDup l : settled l → NoDup (positions l).
Proof. intros ->. apply seq_NoDup. Qed.

Lemma settled_gapless l : settled l → gapless l.
Proof. unfold settled, gapless. by intros ->. Qed.

(** Normalising a list that is already [0 .. n-1] in order changes
    nothing. *)
Lemma normalizePositions_of_settled l : settled l → normalizePositions l = l.
Proof.
  intros Hs. unfold normalizePositions.
  rewrite sortByPosition_id by by apply settled_sorted.
  by apply renumber_of_settled.
Qed.

Lemma normalizePositions_settled l : settled (normalizePositions l).
Proof. apply renumber_settled. Qed.

Lemma normalizePositions_length l :
  length (normalizePositions l) = length l.
Proof.
  unfold normalizePositions. by rewrite length_renumber, sortByPosition_length.
Qed.
End renumbering.

(** ** Position writes *)

Section writes.
Implicit Types (x y r : ExistingImage) (t rows : list ExistingImage).
Implicit Types (ws : list (string * Z)) (w : Remote).

Lemma inj_on_NoDup {A B} (f : A → B) (l : list A) a b :
  NoDup (f <$> l) → a ∈ l → b ∈ l → f a = f b → a = b.
Proof.
  intros Hnd [i Hi]%list_elem_of_lookup [j Hj]%list_elem_of_lookup Hab.
  assert (i = j) as ->; [|congruence].
  eapply NoDup_lookup; [exact Hnd| |]; rewrite list_lookup_fmap.
  - by rewrite Hi.
  - rewrite Hj. simpl. by rewrite Hab.
Qed.

Lemma ids_set_position_of i p t : ids (set_position_of i p t) = ids t.
Proof.
  unfold ids, set_position_of. rewrite <-list_fmap_compose.
  apply list_fmap_ext. intros _ r _. simpl. by case_bool_decide.
Qed.

Lemma length_set_position_of i p t :
  length (set_position_of i p t) = length t.
Proof. apply length_fmap. Qed.

Lemma apply_writes_app ws1 ws2 t :
  apply_writes (ws1 ++ ws2) t = apply_writes ws2 (apply_writes ws1 t).
Proof. apply foldl_app. Qed.

Lemma ids_apply_writes ws t : ids (apply_writes ws t) = ids t.
Proof.
  revert t. induction ws as [|[i p] ws IH]; intros t; simpl; [done|].
  unfold apply_writes in *. simpl. by rewrite IH, ids_set_position_of.
Qed.

Lemma id_assign φ rows r : id (assign φ rows r) = id r.
Proof. unfold assign. by destruct (list_find _ rows) as [[j ?]|]. Qed.

Lemma ids_assign φ rows t : ids (assign φ rows <$> t) = ids t.
Proof.
  unfold ids. rewrite <-list_fmap_compose. apply list_fmap_ext.
  intros _ r _. apply id_assign.
Qed.

Lemma assign_nil φ r : assign φ [] r = r.
Proof. done. Qed.

Lemma find_row rows j r :
  NoDup (ids rows) → rows !! j = Some r →
  list_find (λ x, id x = id r) rows = Some (j, r).
Proof.
  intros Hnd Hj. apply list_find_Some. split_and!; [done..|].
  intros k y Hk Hlt Heq. assert (k = j); [|lia].
  eapply NoDup_lookup; [exact Hnd| |]; unfold ids; rewrite list_lookup_fmap.
  - by rewrite Hk.
  - rewrite Hj. simpl. by rewrite Heq.
Qed.

Lemma find_absent rows i :
  i ∉ ids rows → list_find (λ x, id x = i) rows = None.
Proof.
  intros Hi. apply list_find_None, Forall_forall. intros x Hx <-.
  apply Hi. unfold ids. by apply list_elem_of_fmap_2.
Qed.

Lemma phase_writes_cons offset r rows :
  phase_writes offset (r :: rows)
  = (id r, offset) :: phase_writes (offset + 1) rows.
Proof.
  unfold phase_writes. rewrite imap_cons. f_equal.
  - f_equal. lia.
  - apply imap_ext. intros i x _. simpl. f_equal. lia.
Qed.

Lemma length_phase_writes offset rows :
  length (phase_writes offset rows) = length rows.
Proof. apply length_imap. Qed.

Lemma take_phase_writes k offset rows :
  take k (phase_writes offset rows) = phase_writes offset (take k rows).
Proof.
  revert k offset. induction rows as [|r rows IH]; intros k offset.
  { by destruct k. }
  destruct k as [|k]; [done|].
  rewrite phase_writes_cons. simpl. rewrite phase_writes_cons.
  by rewrite IH.
Qed.

(** The closed form of a completed phase over rows with distinct ids. *)
Lemma apply_phase_writes offset rows t :
  NoDup (ids rows) →
  apply_writes (phase_writes offset rows) t
  = assign (shifted offset) rows <$> t.
Proof.
  revert offset t. induction rows as [|r rows IH]; intros offset t Hnd.
  { simpl. symmetry. rewrite <-(list_fmap_id t) at 2.
    by apply list_fmap_ext. }
  unfold ids in Hnd. rewrite fmap_cons in Hnd.
  apply NoDup_cons in Hnd as [Hr Hnd].
  rewrite phase_writes_cons. unfold apply_writes. simpl.
  fold (apply_writes (phase_writes (offset + 1) rows)
          (set_position_of (id r) offset t)).
  rewrite IH by done. unfold set_position_of.
  rewrite <-list_fmap_compose. apply list_fmap_ext. intros _ x _. simpl.
  unfold assign at 2. simpl. case_bool_decide as Hx.
  - rewrite decide_True by done. unfold assign. simpl.
    rewrite Hx, find_absent by done. unfold shifted. f_equal. lia.
  - rewrite decide_False by congruence. unfold assign.
    destruct (list_find _ rows) as [[j ?]|]; simpl; [|done].
    unfold shifted. f_equal. lia.
Qed.

Lemma assign_twice φ ψ rows r :
  assign ψ rows (assign φ rows r) = assign ψ rows r.
Proof.
  unfold assign at 1 3. rewrite id_assign.
  destruct (list_find _ rows) as [[j ?]|] eqn:Hf; [|unfold assign; by rewrite Hf].
  unfold assign. by destruct (list_find _ rows) as [[? ?]|].
Qed.

(** Placing every row of [rows] on its index: the rows themselves become
    the indexed map. *)
Lemma assign_self φ rows :
  NoDup (ids rows) →
  assign φ rows <$> rows = imap (λ j r, with_position (φ j) r) rows.
Proof.
  intros Hnd. apply list_eq. intros j.
  rewrite list_lookup_fmap, list_lookup_imap.
  destruct (rows !! j) as [r|] eqn:Hj; [|done]. simpl.
  unfold assign. by rewrite (find_row rows j r).
Qed.

(** Distinctness after an assignment: [φ] is injective on the indices and
    avoids the positions of the rows it leaves alone. *)
Lemma NoDup_assign φ rows t :
  NoDup (ids t) → NoDup (positions t) →
  (∀ i j, i < length rows → j < length rows → φ i = φ j → i = j) →
  (∀ j y, j < length rows → y ∈ t → id y ∉ ids rows → φ j ≠ position y) →
  NoDup (positions (assign φ rows <$> t)).
Proof.
  intros Hids Hpos Hinj Hfresh. unfold positions.
  rewrite <-list_fmap_compose.
  apply NoDup_fmap_2_strong; [|by eapply NoDup_fmap_1].
  intros x y Hx Hy. simpl. unfold assign.
  destruct (list_find _ rows) as [[i a]|] eqn:Hfx;
    destruct (list_find (λ x0, id x0 = id y) rows) as [[j b]|] eqn:Hfy;
    simpl; intros Heq.
  - apply list_find_Some in Hfx as (Hi & Hia & _).
    apply list_find_Some in Hfy as (Hj & Hjb & _).
    assert (i = j) as ->.
    { apply Hinj; [by eapply lookup_lt_Some..|done]. }
    apply (inj_on_NoDup id t); [done..|]. congruence.
  - apply list_find_Some in Hfx as (Hi & _ & _).
    apply list_find_None in Hfy. rewrite Forall_forall in Hfy.
    exfalso. eapply (Hfresh i y); [by eapply lookup_lt_Some|done| |done].
    intros (z & Hz & Hzin)%list_elem_of_fmap. by apply (Hfy z).
  - apply list_find_Some in Hfy as (Hj & _ & _).
    apply list_find_None in Hfx. rewrite Forall_forall in Hfx.
    exfalso. eapply (Hfresh j x); [by eapply lookup_lt_Some|done| |done].
    intros (z & Hz & Hzin)%list_elem_of_fmap. by apply (Hfx z).
  - by apply (inj_on_NoDup position t).
Qed.
End writes.

(** ** Running writes against the store *)

Section running.
Implicit Types (x y r : ExistingImage) (t rows : list ExistingImage).
Implicit Types (ws : list (string * Z)) (w : Remote).

Lemma lossless_head w : lossless w → default false (head (plan w)) = false.
Proof.
  unfold lossless. destruct (plan w) as [|b l]; [done|].
  by intros [-> _]%Forall_cons.
Qed.

Lemma lossless_tail w t f l :
  lossless w →
  lossless {| table := t; favorites := f; issued := l;
              plan := tail (plan w) |}.
Proof.
  unfold lossless. simpl. destruct (plan w); [done|].
  by intros [_ ?]%Forall_cons.
Qed.

(** A write after which positions are still distinct is one the store's
    uniqueness check lets through. *)
Lemma no_collision i p t :
  NoDup (ids t) → NoDup (positions (set_position_of i p t)) →
  collides i p t = false.
Proof.
  intros Hids Hnd. unfold collides.
  destruct (bool_decide (i ∈ ids t)) eqn:Hi; [|done]. simpl.
  apply bool_decide_eq_false. intros Hex.
  apply bool_decide_eq_true in Hi.
  apply Exists_exists in Hex as (r & Hr & Hne & Hp).
  apply list_elem_of_fmap in Hi as (x & -> & Hx).
  apply list_elem_of_lookup in Hx as [a Ha].
  apply list_elem_of_lookup in Hr as [b Hb].
  assert (a = b) as ->; [|congruence].
  eapply NoDup_lookup; [exact Hnd| |];
    unfold positions, set_position_of; rewrite !list_lookup_fmap.
  - rewrite Ha. simpl. by rewrite bool_decide_eq_true_2.
  - rewrite Hb. simpl. rewrite bool_decide_eq_false_2 by done.
    by rewrite Hp.
Qed.

Lemma db_update_ok i p w :
  lossless w → collides i p (table w) = false →
  db_update i p w
  = ({| table := set_position_of i p (table w); favorites := favorites w;
        issued := issued w ++ [(UpdatePosition i p, None)];
        plan := tail (plan w) |}, Resolved tt).
Proof.
  intros Hl Hc. unfold db_update, request, request_on.
  by rewrite lossless_head, Hc.
Qed.

Lemma db_update_collision i p w :
  lossless w → collides i p (table w) = true →
  db_update i p w
  = ({| table := table w; favorites := favorites w;
        issued := issued w ++ [(UpdatePosition i p, Some ConstraintViolation)];
        plan := tail (plan w) |}, Rejected ConstraintViolation).
Proof.
  intros Hl Hc. unfold db_update, request, request_on.
  by rewrite lossless_head, Hc.
Qed.

(** Writes that keep positions distinct at every step are all accepted:
    the run resolves, logs exactly these writes, and leaves the rows as the
    unchecked application does. *)
Lemma write_all_ok ws w :
  lossless w → NoDup (ids (table w)) →
  (∀ k, k ≤ length ws →
        NoDup (positions (apply_writes (take k ws) (table w)))) →
  write_all ws w
  = ({| table := apply_writes ws (table w); favorites := favorites w;
        issued := issued w ++ accepted ws;
        plan := drop (length ws) (plan w) |}, Resolved tt).
Proof.
  revert w. induction ws as [|[i p] ws IH]; intros w Hl Hids Hsafe.
  { simpl. unfold resolve. destruct w. simpl.
    by rewrite app_nil_r, drop_0. }
  simpl. unfold await. rewrite db_update_ok; [|done|].
  2:{ apply no_collision; [done|]. apply (Hsafe 1). simpl. lia. }
  rewrite IH; simpl.
  - f_equal. f_equal.
    + by rewrite <-app_assoc.
    + destruct (plan w); simpl; [by rewrite drop_nil|done].
  - by apply lossless_tail.
  - by rewrite ids_set_position_of.
  - intros k Hk. apply (Hsafe (S k)). simpl. lia.
Qed.

Lemma write_from_all offset i rows :
  write_from offset i rows
  = write_all (phase_writes (offset + Z.of_nat i) rows).
Proof.
  revert i. induction rows as [|r rows IH]; intros i; [done|].
  rewrite phase_writes_cons. simpl. rewrite IH.
  by replace (offset + Z.of_nat (S i))%Z with (offset + Z.of_nat i + 1)%Z
    by lia.
Qed.

Lemma write_phase_all offset rows :
  write_phase offset rows = write_all (phase_writes offset rows).
Proof.
  unfold write_phase. rewrite write_from_all. by rewrite Z.add_0_r.
Qed.

Lemma write_all_app ws1 ws2 w :
  write_all (ws1 ++ ws2) w = (do! write_all ws1 in write_all ws2) w.
Proof.
  revert w. induction ws1 as [|[i p] ws1 IH]; intros w; simpl; [done|].
  unfold await in *. destruct (db_update i p w) as [w1 [[]|e]]; [|done].
  apply IH.
Qed.

Lemma two_phase_all rows w :
  two_phase rows w = write_all (two_phase_writes rows) w.
Proof.
  unfold two_phase, two_phase_writes.
  by rewrite write_all_app, !write_phase_all.
Qed.

Lemma updateImagePositions_all ws :
  ListingForm.updateImagePositions ws = write_all ws.
Proof. induction ws as [|x ws IH]; simpl; [done|]. by rewrite IH. Qed.
End running.

(** ** The two-phase renumbering *)

Section two_phase.
Implicit Types (x y r : ExistingImage) (t rows : list ExistingImage).
Implicit Types (w : Remote).

Lemma NoDup_ids_take k rows : NoDup (ids rows) → NoDup (ids (take k rows)).
Proof.
  unfold ids. rewrite fmap_take. intros Hnd.
  eapply sublist_NoDup; [exact Hnd|apply sublist_take].
Qed.

Lemma shifted_inj offset i j : shifted offset i = shifted offset j → i = j.
Proof. unfold shifted. lia. Qed.

(** Phase 1, however far it got: rows already moved sit at [1000 + j],
    above every original position. *)
Lemma phase1_distinct rows t :
  NoDup (ids t) → NoDup (positions t) →
  (∀ p, p ∈ positions t → (p < 1000)%Z) →
  NoDup (positions (assign (shifted 1000) rows <$> t)).
Proof.
  intros Hids Hpos Hlt. apply NoDup_assign; [done..| |].
  - intros i j _ _. apply shifted_inj.
  - intros j y _ Hy _ Heq.
    assert (position y < 1000)%Z as Hy'.
    { apply Hlt. unfold positions. by apply list_elem_of_fmap_2. }
    unfold shifted in Heq. lia.
Qed.

(** After phase 1 every row of the parent sits at [1000 + its index]. *)
Lemma phase1_position rows t y :
  NoDup (ids rows) → rows ≡ₚ t →
  y ∈ assign (shifted 1000) rows <$> t →
  ∃ m x, rows !! m = Some x ∧ id y = id x
         ∧ position y = (1000 + Z.of_nat m)%Z.
Proof.
  intros Hnd Hp (x & -> & Hx)%list_elem_of_fmap.
  rewrite <-Hp in Hx. apply list_elem_of_lookup in Hx as [m Hm].
  exists m, x. unfold assign. by rewrite (find_row rows m x).
Qed.

(** Phase 2, however far it got: rows already renumbered sit at their
    index, the others still at [1000 + index]. *)
Lemma phase2_distinct k rows t :
  NoDup (ids t) → NoDup (positions t) →
  (∀ p, p ∈ positions t → (p < 1000)%Z) →
  rows ≡ₚ t →
  NoDup (positions (assign (shifted 0) (take k rows)
                      <$> (assign (shifted 1000) rows <$> t))).
Proof.
  intros Hids Hpos Hlt Hp.
  assert (NoDup (ids rows)) as Hrows by (unfold ids; by rewrite Hp).
  apply NoDup_assign.
  - by rewrite ids_assign.
  - by apply phase1_distinct.
  - intros i j _ _. apply shifted_inj.
  - intros j y Hj Hy Hout Heq.
    destruct (phase1_position rows t y) as (m & x & Hm & Hid & Hpy);
      [done..|].
    unfold shifted in Heq. rewrite Hpy in Heq.
    rewrite length_take in Hj.
    destruct (decide (m < k)) as [Hmk|Hmk]; [|lia].
    apply Hout. rewrite Hid. unfold ids. apply list_elem_of_fmap_2.
    apply elem_of_take. eauto.
Qed.

Lemma two_phase_writes_take k rows :
  take k (two_phase_writes rows)
  = if decide (k ≤ length rows)
    then phase_writes 1000 (take k rows)
    else phase_writes 1000 rows
           ++ phase_writes 0 (take (k - length rows) rows).
Proof.
  unfold two_phase_writes. case_decide.
  - rewrite take_app_le by (rewrite length_phase_writes; lia).
    apply take_phase_writes.
  - rewrite take_app_ge by (rewrite length_phase_writes; lia).
    by rewrite length_phase_writes, take_phase_writes.
Qed.

(** No prefix of the two-phase write sequence leaves two rows of the
    parent on one position. *)
Lemma two_phase_prefix_distinct k rows t :
  NoDup (ids t) → NoDup (positions t) →
  (∀ p, p ∈ positions t → (p < 1000)%Z) →
  rows ≡ₚ t →
  NoDup (positions (apply_writes (take k (two_phase_writes rows)) t)).
Proof.
  intros Hids Hpos Hlt Hp.
  assert (NoDup (ids rows)) as Hrows by (unfold ids; by rewrite Hp).
  rewrite two_phase_writes_take. case_decide.
  - rewrite apply_phase_writes by by apply NoDup_ids_take.
    by apply phase1_distinct.
  - rewrite apply_writes_app, !apply_phase_writes
      by (done || by apply NoDup_ids_take).
    by apply phase2_distinct.
Qed.

Lemma two_phase_closed rows t :
  NoDup (ids rows) →
  apply_writes (two_phase_writes rows) t = assign (shifted 0) rows <$> t.
Proof.
  intros Hrows. unfold two_phase_writes.
  rewrite apply_writes_app, !apply_phase_writes by done.
  rewrite <-list_fmap_compose. apply list_fmap_ext. intros _ x _. simpl.
  apply assign_twice.
Qed.

(** The rows read back in position order are the chosen order, at
    [0 .. n-1]. *)
Lemma two_phase_order rows t :
  NoDup (ids t) → rows ≡ₚ t →
  sortByPosition (apply_writes (two_phase_writes rows) t) = renumber rows.
Proof.
  intros Hids Hp.
  assert (NoDup (ids rows)) as Hrows by (unfold ids; by rewrite Hp).
  rewrite two_phase_closed by done.
  apply sortByPosition_unique.
  - apply settled_NoDup, renumber_settled.
  - apply settled_sorted, renumber_settled.
  - rewrite <-Hp, assign_self by done. unfold renumber.
    rewrite (imap_ext _ (λ idx img, with_position (Z.of_nat idx) img));
      [done|].
    intros j r _. simpl. by unfold shifted.
Qed.

(** The run itself, on a transport that loses nothing. *)
Lemma two_phase_run rows w :
  lossless w →
  NoDup (ids (table w)) → NoDup (positions (table w)) →
  (∀ p, p ∈ positions (table w) → (p < 1000)%Z) →
  rows ≡ₚ table w →
  two_phase rows w
  = ({| table := apply_writes (two_phase_writes rows) (table w);
        favorites := favorites w;
        issued := issued w ++ accepted (two_phase_writes rows);
        plan := drop (length (two_phase_writes rows)) (plan w) |},
     Resolved tt).
Proof.
  intros Hl Hids Hpos Hlt Hp. rewrite two_phase_all.
  apply write_all_ok; [done..|].
  intros k _. by apply two_phase_prefix_distinct.
Qed.
End two_phase.

(** ** The pairwise swap *)

Section swap.
Implicit Types (x y r a b : ExistingImage) (t : list ExistingImage).
Implicit Types (w : Remote).

Lemma elem_of_set_position_of y i p t :
  y ∈ set_position_of i p t →
  ∃ x, x ∈ t ∧ id y = id x
       ∧ (id x = i ∧ position y = p ∨ id x ≠ i ∧ y = x).
Proof.
  intros (x & -> & Hx)%list_elem_of_fmap. exists x. split; [done|].
  case_bool_decide; simpl; eauto.
Qed.

(** One write to a position that no other row holds. *)
Lemma NoDup_set_position_of i p t :
  NoDup (ids t) → NoDup (positions t) →
  (∀ y, y ∈ t → id y ≠ i → position y ≠ p) →
  NoDup (positions (set_position_of i p t)).
Proof.
  intros Hids Hpos Hfresh. unfold positions, set_position_of.
  rewrite <-list_fmap_compose.
  apply NoDup_fmap_2_strong; [|by eapply NoDup_fmap_1].
  intros x y Hx Hy. simpl.
  do 2 case_bool_decide; simpl; intros Heq.
  - apply (inj_on_NoDup id t); [done..|]. congruence.
  - exfalso. by eapply (Hfresh y).
  - exfalso. by eapply (Hfresh x).
  - by apply (inj_on_NoDup position t).
Qed.

Lemma position_in a t : a ∈ t → position a ∈ positions t.
Proof. intros. unfold positions. by apply list_elem_of_fmap_2. Qed.

Lemma swap_step1 a t :
  NoDup (ids t) → NoDup (positions t) → Uploader.temp ∉ positions t →
  NoDup (positions (set_position_of (id a) Uploader.temp t)).
Proof.
  intros Hids Hpos Htemp. apply NoDup_set_position_of; [done..|].
  intros y Hy _ Heq. apply Htemp. rewrite <-Heq. by apply position_in.
Qed.

Lemma swap_step2 a b t :
  NoDup (ids t) → NoDup (positions t) → Uploader.temp ∉ positions t →
  a ∈ t → b ∈ t → id a ≠ id b →
  NoDup (positions
           (set_position_of (id b) (position a)
              (set_position_of (id a) Uploader.temp t))).
Proof.
  intros Hids Hpos Htemp Ha Hb Hab. apply NoDup_set_position_of.
  - by rewrite ids_set_position_of.
  - by apply swap_step1.
  - intros y Hy Hyb Heq.
    apply elem_of_set_position_of in Hy
      as (x & Hx & Hid & [[Hxa Hp]|[Hxa ->]]).
    + apply Htemp. rewrite <-Hp, Heq. by apply position_in.
    + apply Hxa. f_equal. by apply (inj_on_NoDup position t).
Qed.

Lemma swap_step3 a b t :
  NoDup (ids t) → NoDup (positions t) → Uploader.temp ∉ positions t →
  a ∈ t → b ∈ t → id a ≠ id b →
  NoDup (positions
           (set_position_of (id a) (position b)
              (set_position_of (id b) (position a)
                 (set_position_of (id a) Uploader.temp t)))).
Proof.
  intros Hids Hpos Htemp Ha Hb Hab. apply NoDup_set_position_of.
  - by rewrite !ids_set_position_of.
  - by apply swap_step2.
  - intros y Hy Hya Heq.
    apply elem_of_set_position_of in Hy
      as (x & Hx & Hid & [[Hxb Hp]|[Hxb ->]]).
    + apply Hab. f_equal. apply (inj_on_NoDup position t); [done..|].
      congruence.
    + apply elem_of_set_position_of in Hx
        as (z & Hz & Hidz & [[Hza Hp]|[Hza ->]]); [congruence|].
      apply Hxb. f_equal. by apply (inj_on_NoDup position t).
Qed.

Lemma swap_closed a b t :
  id a ≠ id b →
  apply_writes [(id a, Uploader.temp); (id b, position a);
                (id a, position b)] t
  = swapped a b t.
Proof.
  intros Hab. unfold apply_writes, swapped, set_position_of. simpl.
  rewrite <-!list_fmap_compose. apply list_fmap_ext. intros _ x _. simpl.
  destruct (decide (id x = id a)) as [Hxa|Hxa].
  - rewrite !(bool_decide_eq_true_2 (id x = id a)) by done. simpl.
    rewrite (bool_decide_eq_false_2 (id x = id b)) by congruence.
    by rewrite (bool_decide_eq_true_2 (id x = id a)) by done.
  - rewrite !(bool_decide_eq_false_2 (id x = id a)) by done.
    destruct (bool_decide (id x = id b)); simpl;
      by rewrite bool_decide_eq_false_2.
Qed.
(** A swap permutes the positions, so a gapless parent stays gapless. *)
Lemma swapped_positions a b t :
  NoDup (ids t) → a ∈ t → b ∈ t → id a ≠ id b →
  positions (swapped a b t) ≡ₚ positions t.
Proof.
  intros Hnd Ha Hb Hab.
  apply elem_of_Permutation in Ha as [t1 Ht1].
  assert (b ∈ t1) as Hb1.
  { rewrite Ht1 in Hb. apply elem_of_cons in Hb as [->|Hb]; done. }
  apply elem_of_Permutation in Hb1 as [t2 Ht2].
  assert (t ≡ₚ a :: b :: t2) as Hp by by rewrite Ht1, Ht2.
  unfold ids in Hnd. rewrite Hp in Hnd. rewrite !fmap_cons in Hnd.
  apply NoDup_cons in Hnd as [Ha2 Hnd]. apply NoDup_cons in Hnd as [Hb2 _].
  unfold positions, swapped. rewrite Hp, !fmap_cons.
  rewrite bool_decide_eq_true_2 by done.
  rewrite (bool_decide_eq_false_2 (id b = id a)) by done.
  rewrite bool_decide_eq_true_2 by done. cbn [position with_position].
  rewrite Permutation_swap. do 2 f_equiv.
  rewrite <-list_fmap_compose. apply reflexive_eq, list_fmap_ext.
  intros _ x Hx%list_elem_of_lookup_2. simpl.
  apply (list_elem_of_fmap_2 id) in Hx.
  apply not_elem_of_cons in Ha2 as [_ Ha2].
  rewrite !bool_decide_eq_false_2; [done|..]; intros Heq;
    rewrite Heq in Hx; done.
Qed.

Lemma swap_gapless a b t :
  NoDup (ids t) → a ∈ t → b ∈ t → id a ≠ id b →
  gapless t → gapless (swapped a b t).
Proof.
  intros Hnd Ha Hb Hab. unfold gapless.
  rewrite swapped_positions by done. unfold swapped.
  by rewrite length_fmap.
Qed.

Lemma reorderMutation_fn_all a b w :
  Uploader.reorderMutation_fn a b w
  = write_all [(id a, Uploader.temp); (id b, position a);
               (id a, position b)] w.
Proof.
  unfold Uploader.reorderMutation_fn. simpl. unfold await.
  destruct (db_update _ _ w) as [w1 [[]|]]; [|done].
  destruct (db_update _ _ w1) as [w2 [[]|]]; [|done].
  by destruct (db_update _ _ w2) as [w3 [[]|]].
Qed.
End swap.



(** ** The mutation functions on a transport that loses nothing *)

Ltac fields := cbn [table favorites issued plan fst snd].

Lemma Forall_tail {A} (P : A → Prop) (l : list A) :
  Forall P l → Forall P (tail l).
Proof. destruct 1; [done|]. done. Qed.

Ltac still_lossless :=
  unfold lossless in *; fields;
  repeat first [assumption | apply Forall_tail | apply Forall_drop].

Section mutation_functions.
Implicit Types (x y r img : ExistingImage) (t rows : list ExistingImage).
Implicit Types (w : Remote).

Lemma request_ok {A} c serve w t' (a : A) :
  lossless w → serve (table w) = Resolved (t', a) →
  request c serve w
  = ({| table := t'; favorites := favorites w;
        issued := issued w ++ [(c, None)]; plan := tail (plan w) |},
     Resolved a).
Proof.
  intros Hl Hs. unfold request, request_on. by rewrite lossless_head, Hs.
Qed.

Lemma db_delete_ok i w :
  lossless w →
  db_delete i w
  = ({| table := filter (λ r, id r ≠ i) (table w);
        favorites := favorites w;
        issued := issued w ++ [(DeleteRow i, None)];
        plan := tail (plan w) |}, Resolved tt).
Proof. intros. by apply request_ok. Qed.

Lemma db_select_ok w :
  lossless w →
  db_select w
  = ({| table := table w; favorites := favorites w;
        issued := issued w ++ [(SelectRows, None)];
        plan := tail (plan w) |}, Resolved (sortByPosition (table w))).
Proof. intros. by apply request_ok. Qed.

Lemma storage_remove_ok b ps w :
  lossless w →
  best_effort (storage_remove b ps) w
  = ({| table := table w; favorites := favorites w;
        issued := issued w ++ [(RemoveObjects b ps, None)];
        plan := tail (plan w) |}, Resolved tt).
Proof.
  intros. unfold best_effort, storage_remove.
  by erewrite request_ok.
Qed.

Lemma filter_all {A} (P : A → Prop) `{!∀ a, Decision (P a)} (l : list A) :
  Forall P l → filter P l = l.
Proof.
  induction 1 as [|a l Ha _ IH]; [done|].
  by rewrite filter_cons_True, IH.
Qed.

(** With distinct ids, dropping the rows whose id is that of the row at
    index [i] removes exactly that row. *)
Lemma filter_ne_delete t i x :
  NoDup (ids t) → t !! i = Some x →
  filter (λ y, id y ≠ id x) t = delete i t.
Proof.
  revert i. induction t as [|y t IH]; intros i Hnd Hi; [done|].
  unfold ids in Hnd. rewrite fmap_cons in Hnd.
  apply NoDup_cons in Hnd as [Hy Hnd]. destruct i as [|i]; simpl in *.
  - injection Hi as ->. rewrite filter_cons_False by (intros ?; done).
    apply filter_all, Forall_forall. intros z Hz Heq. apply Hy.
    rewrite <-Heq. by apply list_elem_of_fmap_2.
  - rewrite filter_cons_True.
    + f_equal. by apply IH.
    + intros Heq. apply Hy. rewrite Heq.
      apply list_elem_of_fmap_2. by eapply list_elem_of_lookup_2.
Qed.

Lemma findIndex_at t i x :
  NoDup (ids t) → t !! i = Some x → findIndex (id x) t = Z.of_nat i.
Proof. intros Hnd Hi. unfold findIndex. by rewrite (find_row t i x). Qed.

Lemma findIndex_absent t i : i ∉ ids t → findIndex i t = (-1)%Z.
Proof. intros Hi. unfold findIndex. by rewrite find_absent. Qed.

Lemma NoDup_ids_sort t : NoDup (ids t) → NoDup (ids (sortByPosition t)).
Proof. unfold ids. by rewrite sortByPosition_perm. Qed.


Lemma move_to_front_perm i x t : t !! i = Some x → move_to_front i t ≡ₚ t.
Proof.
  intros Hi. unfold move_to_front. rewrite Hi.
  symmetry. by apply delete_Permutation.
Qed.

(** [setCoverMutation.mutationFn] when the target is at index [i > 0] of
    the rows read back: one read, then the two phases over the target
    followed by the other rows in their order; no write is rejected. *)
Lemma setCoverMutation_fn_run img w i x :
  lossless w →
  NoDup (ids (table w)) → NoDup (positions (table w)) →
  (∀ p, p ∈ positions (table w) → (p < 1000)%Z) →
  sortByPosition (table w) !! i = Some x → id x = id img → 0 < i →
  let rows := x :: delete i (sortByPosition (table w)) in
  ∃ w',
    Uploader.setCoverMutation_fn img w = (w', Resolved tt)
    ∧ issued w'
      = issued w ++ (SelectRows, None) :: accepted (two_phase_writes rows)
    ∧ table w' = apply_writes (two_phase_writes rows) (table w)
    ∧ sortByPosition (table w') = renumber rows.
Proof.
  intros Hl Hids Hpos Hlt Hi Hid Hi0 rows.
  unfold Uploader.setCoverMutation_fn, await.
  rewrite db_select_ok by done.
  rewrite <-Hid, (findIndex_at _ i x) by (by apply NoDup_ids_sort || done).
  rewrite bool_decide_eq_false_2 by lia. rewrite Nat2Z.id.
  assert (move_to_front i (sortByPosition (table w)) = rows) as ->.
  { unfold move_to_front. by rewrite Hi. }
  assert (rows ≡ₚ table w) as Hp.
  { unfold rows. rewrite <-delete_Permutation by done.
    apply sortByPosition_perm. }
  rewrite two_phase_run; fields; [|still_lossless|done..].
  eexists. split_and!; [done|fields..].
  - by rewrite <-app_assoc.
  - done.
  - by apply two_phase_order.
Qed.

(** [deleteMutation.mutationFn] of the optimistic uploader: the row goes,
    the remaining rows are read back and renumbered in two phases. *)
Lemma deleteMutation_fn_run img w :
  lossless w →
  NoDup (ids (table w)) → NoDup (positions (table w)) →
  (∀ r, r ∈ table w → id r ≠ id img → (position r < 1000)%Z) →
  let rows := filter (λ r, id r ≠ id img) (sortByPosition (table w)) in
  ∃ w',
    Uploader.deleteMutation_fn img w = (w', Resolved tt)
    ∧ issued w'
      = issued w
        ++ [(DeleteRow (id img), None);
            (RemoveObjects (bucket img) [path img], None);
            (SelectRows, None)]
        ++ accepted (two_phase_writes rows)
    ∧ table w'
      = apply_writes (two_phase_writes rows)
          (filter (λ r, id r ≠ id img) (table w))
    ∧ sortByPosition (table w') = renumber rows.
Proof.
  intros Hl Hids Hpos Hlt rows.
  set (t1 := filter (λ r, id r ≠ id img) (table w)).
  assert (t1 `sublist_of` table w) as Hsub by apply sublist_filter.
  assert (NoDup (ids t1)) as Hids1.
  { eapply sublist_NoDup; [exact Hids|]. by apply fmap_sublist. }
  assert (NoDup (positions t1)) as Hpos1.
  { eapply sublist_NoDup; [exact Hpos|]. by apply fmap_sublist. }
  assert (rows = sortByPosition t1) as Hrows.
  { unfold rows, t1. by rewrite sortByPosition_filter. }
  unfold Uploader.deleteMutation_fn, await.
  rewrite db_delete_ok by done.
  rewrite storage_remove_ok by still_lossless.
  rewrite db_select_ok by still_lossless.
  fields. fold t1. rewrite <-Hrows.
  rewrite two_phase_run; fields.
  - eexists. split_and!; [done|fields..].
    + by rewrite <-!app_assoc.
    + done.
    + apply two_phase_order; [done|]. rewrite Hrows.
      apply sortByPosition_perm.
  - still_lossless.
  - done.
  - done.
  - intros p (r & -> & Hr)%list_elem_of_fmap.
    apply list_elem_of_filter in Hr as [Hne Hr]. by apply Hlt.
  - rewrite Hrows. apply sortByPosition_perm.
Qed.
End mutation_functions.

(** ** Gaplessness *)

Lemma gapless_of_sorted (t : list ExistingImage) :
  settled (sortByPosition t) → gapless t.
Proof.
  unfold settled, gapless, positions. rewrite sortByPosition_length.
  intros <-. by rewrite sortByPosition_perm.
Qed.

Lemma not_gapless_0_2 (a b : ExistingImage) :
  position a = 0%Z → position b = 2%Z → ¬ gapless [a; b].
Proof.
  unfold gapless, positions. simpl. intros -> -> Hp.
  assert (1%Z ∈ [0%Z; 2%Z]) as Hin.
  { rewrite Hp. apply elem_of_cons. right. apply elem_of_cons. by left. }
  apply elem_of_cons in Hin as [?|Hin]; [done|].
  apply elem_of_cons in Hin as [?|Hin]; [done|].
  by apply elem_of_nil in Hin.
Qed.

(** After a successful delete of the optimistic uploader the parent is
    gapless again. *)
Lemma uploader_delete_gapless (img : ExistingImage) (w w' : Remote) :
  lossless w →
  NoDup (ids (table w)) → NoDup (positions (table w)) →
  (∀ r, r ∈ table w → id r ≠ id img → (position r < 1000)%Z) →
  Uploader.deleteMutation_fn img w = (w', Resolved tt) →
  gapless (table w').
Proof.
  intros Hl Hids Hpos Hlt Hrun.
  destruct (deleteMutation_fn_run img w) as (w2 & Hrun2 & _ & _ & Hs);
    [done..|].
  rewrite Hrun in Hrun2. injection Hrun2 as <-.
  apply gapless_of_sorted. rewrite Hs. apply renumber_settled.
Qed.

(** After a successful set cover that moved something the parent is
    gapless again. *)
Lemma set_cover_gapless (img x : ExistingImage) (w w' : Remote) (i : nat) :
  lossless w →
  NoDup (ids (table w)) → NoDup (positions (table w)) →
  (∀ p, p ∈ positions (table w) → (p < 1000)%Z) →
  sortByPosition (table w) !! i = Some x → id x = id img → 0 < i →
  Uploader.setCoverMutation_fn img w = (w', Resolved tt) →
  gapless (table w').
Proof.
  intros Hl Hids Hpos Hlt Hi Hid Hi0 Hrun.
  destruct (setCoverMutation_fn_run img w i x) as (w2 & Hrun2 & _ & _ & Hs);
    [done..|].
  rewrite Hrun in Hrun2. injection Hrun2 as <-.
  apply gapless_of_sorted. rewrite Hs. apply renumber_settled.
Qed.

Lemma foldr_max_seq (p : Z) (m n : nat) :
  (p < Z.of_nat m)%Z →
  foldr Z.max p (Z.of_nat <$> seq m (S n)) = Z.of_nat (m + n).
Proof.
  revert m. induction n as [|n IH]; intros m Hp.
  - simpl. lia.
  - change (seq m (S (S n))) with (m :: seq (S m) (S n)).
    rewrite fmap_cons. cbn [foldr]. rewrite IH by lia. lia.
Qed.

(** Uploads continue after the largest position: from a settled list of
    [n] images the first new file gets position [n], the next [n + 1], and
    so on, so the longer list is settled again. *)
Lemma startPos_settled (l : list ExistingImage) :
  settled l → Uploader.startPos l = Z.of_nat (length l).
Proof.
  intros Hs. unfold Uploader.startPos. destruct l as [|x l]; [done|].
  unfold settled, positions in Hs. rewrite fmap_cons in Hs.
  cbn [length seq] in Hs. rewrite fmap_cons in Hs.
  injection Hs as Hx Hl. rewrite Hx. unfold positions. rewrite Hl.
  destruct l as [|y l]; [done|].
  cbn [length]. rewrite foldr_max_seq by lia. lia.
Qed.

Lemma uploadedPositions_settled (l : list ExistingImage) (k : nat) :
  settled l →
  positions l ++ Uploader.uploadedPositions l k
  = Z.of_nat <$> seq 0 (length l + k).
Proof.
  intros Hs. unfold Uploader.uploadedPositions.
  rewrite startPos_settled, Hs by done.
  rewrite seq_app, fmap_app. f_equal.
  replace (0 + length l) with (length l + 0) by lia.
  rewrite <-(fmap_add_seq (length l) 0 k), <-list_fmap_compose.
  apply list_fmap_ext. intros _ i _. simpl. lia.
Qed.

(** C1. Gaplessness is re-established by every core operation: the code
    breaks it. The delete of the plain uploader removes the row and stops;
    deleting the middle image of a settled parent [X, Y, Z] succeeds and
    leaves the positions [0, 2]. *)
Theorem plain_delete_leaves_gap :
  let w := reliable [imgX; imgY; imgZ] in
  settled (table w)
  ∧ ∃ w',
      PlainUploader.deleteMutation_fn imgY w = (w', Resolved tt)
      ∧ positions (table w') = [0; 2]%Z
      ∧ ¬ gapless (table w').
Proof.
  split; [done|]. eexists. split_and!.
  - vm_compute. reflexivity.
  - done.
  - by apply not_gapless_0_2.
Qed.

(** C3. No renumbering ever puts two rows on one position: the code breaks
    it in the edit form. Moving [Y] in front of [X] and saving renumbers in
    a single pass; the first write, [Y := 0], meets [X] still at [0]. The
    store rejects it and the save fails. *)
Theorem form_renumbering_collides :
  let state := ListingForm.moveExisting [] 1 0 [imgX; imgY] in
  let ws := ListingForm.positionUpdates [] state in
  state = [imgY; imgX]
  ∧ ws = [("Y", 0%Z); ("X", 1%Z)]
  ∧ positions (apply_writes (take 1 ws) [imgX; imgY]) = [0; 0]%Z
  ∧ ∃ w',
      ListingForm.saveExistingImages [] state (reliable [imgX; imgY])
      = (w', Rejected ConstraintViolation)
      ∧ issued w' = [(UpdatePosition "Y" 0, Some ConstraintViolation)]
      ∧ table w' = [imgX; imgY].
Proof.
  split_and!; [done..|]. eexists. split_and!.
  - vm_compute. reflexivity.
  - done.
  - done.
Qed.

(** C4. Promote to cover puts the target first in the cache and in the
    store: the code does so in the store only. For [X, Y, Z] and target [Z]
    the store ends with [Z, X, Y] at [0, 1, 2], but the optimistic update
    sorts by the old positions again and leaves the cache at
    [X, Y, Z]. *)
Theorem set_cover_cache_not_reordered :
  let s := (loaded [imgX; imgY; imgZ], reliable [imgX; imgY; imgZ]) in
  (Uploader.setCoverMutation_onMutate imgZ s.1).1
  = loaded [imgX; imgY; imgZ]
  ∧ ∃ ui' w',
      Uploader.setCoverMutation imgZ s = (ui', w', Resolved tt)
      ∧ cache ui' = Some [imgX; imgY; imgZ]
      ∧ sortByPosition (table w')
        = [with_position 0 imgZ; with_position 1 imgX;
           with_position 2 imgY].
Proof.
  split; [done|]. eexists _, _. split_and!.
  - vm_compute. reflexivity.
  - done.
  - done.
Qed.

(** ** Delete *)

Lemma deleteMutation_onMutate_cache (img x : ExistingImage)
    (prev : list ExistingImage) (i : nat) (ui : Ui) :
  cache ui = Some prev → NoDup (ids prev) →
  sortByPosition prev !! i = Some x → id x = id img →
  cache (Uploader.deleteMutation_onMutate img ui).1
  = Some (renumber (delete i (sortByPosition prev))).
Proof.
  intros Hc Hnd Hi Hid. unfold Uploader.deleteMutation_onMutate. simpl.
  rewrite Hc. simpl. unfold normalizePositions.
  rewrite sortByPosition_filter, <-Hid.
  by rewrite (filter_ne_delete _ i x) by (by apply NoDup_ids_sort || done).
Qed.

(** The counterexample to C5 as stated: a set cover interrupted after its
    first write leaves [Z] at [1000]; the next delete cannot renumber,
    because its first write, [X := 1000], meets [Z]. *)
Lemma delete_after_interrupted_cover :
  ∃ w1 w2,
    Uploader.setCoverMutation_fn imgZ
      {| table := [imgX; imgY; imgZ]; favorites := ∅; issued := [];
         plan := [false; false; true] |}
    = (w1, Rejected NetworkFailure)
    ∧ table w1 = [imgX; imgY; with_position 1000 imgZ]
    ∧ Uploader.deleteMutation_fn imgY (reliable (table w1))
      = (w2, Rejected ConstraintViolation)
    ∧ sortByPosition (table w2) = [imgX; with_position 1000 imgZ]
    ∧ sortByPosition (table w2)
      ≠ renumber (delete 1 (sortByPosition (table w1))).
Proof.
  eexists _, _. split_and!.
  - vm_compute. reflexivity.
  - done.
  - vm_compute. reflexivity.
  - done.
  - vm_compute. discriminate.
Qed.

(** C5, amended. Deleting the image at index [i] of the cached ordered
    list leaves, in the cache, the other images in their order at
    [0 .. k-2]; and when no request is lost, ids are distinct and the
    positions of the remaining rows are pairwise distinct and below [1000],
    the delete resolves and the store holds the other rows in their order
    at [0 .. k-2] as well. *)
Theorem delete_gap_closure (img x y : ExistingImage)
    (prev : list ExistingImage) (i j : nat) (ui : Ui) (w : Remote) :
  cache ui = Some prev → NoDup (ids prev) →
  sortByPosition prev !! i = Some x → id x = id img →
  lossless w →
  NoDup (ids (table w)) → NoDup (positions (table w)) →
  (∀ r, r ∈ table w → id r ≠ id img → (position r < 1000)%Z) →
  sortByPosition (table w) !! j = Some y → id y = id img →
  ∃ ui' w',
    Uploader.deleteMutation img (ui, w) = (ui', w', Resolved tt)
    ∧ cache (Uploader.deleteMutation_onMutate img ui).1
      = Some (renumber (delete i (sortByPosition prev)))
    ∧ cache ui' = Some (renumber (delete i (sortByPosition prev)))
    ∧ sortByPosition (table w')
      = renumber (delete j (sortByPosition (table w))).
Proof.
  intros Hc Hnd Hi Hidx Hl Hids Hpos Hlt Hj Hidy.
  pose proof (deleteMutation_onMutate_cache img x prev i ui Hc Hnd Hi Hidx)
    as Hcache.
  destruct (deleteMutation_fn_run img w) as (w' & Hrun & _ & _ & Hs);
    [done..|].
  unfold Uploader.deleteMutation, Uploader.run. cbn [fst snd].
  destruct (Uploader.deleteMutation_onMutate img ui) as [ui1 ctx].
  rewrite Hrun. eexists _, _. split_and!; [done..|].
  rewrite Hs, <-Hidy.
  by rewrite (filter_ne_delete _ j y) by (by apply NoDup_ids_sort || done).
Qed.

Lemma delete_gap_closure_witness :
  ∃ ui' w',
    Uploader.deleteMutation imgY
      (loaded [imgX; imgY; imgZ], reliable [imgX; imgY; imgZ])
    = (ui', w', Resolved tt)
    ∧ cache (Uploader.deleteMutation_onMutate imgY
               (loaded [imgX; imgY; imgZ])).1
      = Some (renumber (delete 1 (sortByPosition [imgX; imgY; imgZ])))
    ∧ cache ui'
      = Some (renumber (delete 1 (sortByPosition [imgX; imgY; imgZ])))
    ∧ sortByPosition (table w')
      = renumber
          (delete 1
             (sortByPosition (table (reliable [imgX; imgY; imgZ])))).
Proof.
  apply (delete_gap_closure imgY imgY imgY [imgX; imgY; imgZ] 1 1).
  - reflexivity.
  - apply (bool_decide_unpack _). vm_compute. reflexivity.
  - reflexivity.
  - reflexivity.
  - constructor.
  - apply (bool_decide_unpack _). vm_compute. reflexivity.
  - apply (bool_decide_unpack _). vm_compute. reflexivity.
  - intros r Hr _.
    repeat (apply elem_of_cons in Hr as [->|Hr]; [vm_compute; reflexivity|]).
    by apply elem_of_nil in Hr.
  - reflexivity.
  - reflexivity.
Defined.

(** Scenario B: deleting the image at position 1 of [X, Y, Z] leaves
    [X, Z] at [0, 1], in the cache and in the store. *)
Example delete_middle_of_three :
  ∃ ui' w',
    Uploader.deleteMutation imgY
      (loaded [imgX; imgY; imgZ], reliable [imgX; imgY; imgZ])
    = (ui', w', Resolved tt)
    ∧ cache ui' = Some [imgX; with_position 1 imgZ]
    ∧ sortByPosition (table w') = [imgX; with_position 1 imgZ].
Proof. eexists _, _. split_and!; [vm_compute; reflexivity|done..]. Qed.

(** ** Deleting what is already gone *)




(** ** Set cover *)

Lemma findIndex_le_0 (target : string) (l : list ExistingImage) :
  (∃ x, l !! 0 = Some x ∧ id x = target) ∨ target ∉ ids l →
  (findIndex target l ≤ 0)%Z.
Proof.
  unfold findIndex.
  destruct (list_find _ l) as [[i y]|] eqn:Hf; [|lia].
  apply list_find_Some in Hf as (Hi & Hy & Hmin).
  intros [(x & Hx & Hid)|Hout].
  - destruct i as [|i]; [lia|]. destruct (Hmin 0 x); [done|lia|done].
  - destruct Hout. rewrite <-Hy. unfold ids.
    apply list_elem_of_fmap_2. by eapply list_elem_of_lookup_2.
Qed.

(** On a cache that is already [0 .. n-1] in order, the optimistic part
    of set cover never changes the cached list, whatever the target. *)
Lemma setCoverMutation_onMutate_settled (img : ExistingImage)
    (prev : list ExistingImage) (ui : Ui) :
  cache ui = Some prev → settled prev →
  cache (Uploader.setCoverMutation_onMutate img ui).1 = Some prev.
Proof.
  intros Hc Hs. unfold Uploader.setCoverMutation_onMutate.
  cbn [setErrorMsg cache]. rewrite Hc.
  change (default [] (Some prev)) with prev.
  rewrite (sortByPosition_id prev) by by apply settled_sorted.
  case_bool_decide as Hidx; [done|]. cbn [fst setQueryData cache].
  f_equal. unfold normalizePositions.
  assert (∃ x, prev !! Z.to_nat (findIndex (id img) prev) = Some x)
    as [x Hx].
  { unfold findIndex in *.
    destruct (list_find _ prev) as [[i y]|] eqn:Hf; [|lia].
    apply list_find_Some in Hf as (Hi & _). rewrite Nat2Z.id. eauto. }
  rewrite (sortByPosition_unique _ prev).
  - by apply renumber_of_settled.
  - by apply settled_NoDup.
  - by apply settled_sorted.
  - by eapply move_to_front_perm.
Qed.

(** C10. A set cover whose target is already first in the position-sorted
    list, or is not in it, writes no position (it only reads the rows) and
    leaves the cached list as it is. *)
Theorem redundant_set_cover_is_noop (img : ExistingImage) (ui : Ui)
    (w : Remote) :
  let rows := sortByPosition (table w) in
  let sorted := sortByPosition (default [] (cache ui)) in
  (∃ x, rows !! 0 = Some x ∧ id x = id img) ∨ id img ∉ ids rows →
  (∃ x, sorted !! 0 = Some x ∧ id x = id img) ∨ id img ∉ ids sorted →
  (∀ w' r, Uploader.setCoverMutation_fn img w = (w', r) →
           table w' = table w
           ∧ ∃ e, issued w' = issued w ++ [(SelectRows, e)])
  ∧ cache (Uploader.setCoverMutation_onMutate img ui).1 = cache ui
  ∧ (lossless w →
     ∃ ui' w',
       Uploader.setCoverMutation img (ui, w) = (ui', w', Resolved tt)
       ∧ cache ui' = cache ui
       ∧ table w' = table w
       ∧ issued w' = issued w ++ [(SelectRows, None)]).
Proof.
  intros rows sorted Hrows%findIndex_le_0 Hsorted%findIndex_le_0.
  assert (cache (Uploader.setCoverMutation_onMutate img ui).1 = cache ui)
    as Hcache.
  { unfold Uploader.setCoverMutation_onMutate. cbn [setErrorMsg cache].
    fold sorted. by rewrite bool_decide_eq_true_2. }
  split_and!; [|done|].
  - intros w' r. unfold Uploader.setCoverMutation_fn, await, db_select,
      request, request_on.
    destruct (default false (head (plan w))).
    + intros [= <- <-]. fields. eauto.
    + fold rows. rewrite bool_decide_eq_true_2 by done.
      unfold resolve. intros [= <- <-]. fields. eauto.
  - intros Hl. unfold Uploader.setCoverMutation, Uploader.run.
    cbn [fst snd].
    destruct (Uploader.setCoverMutation_onMutate img ui) as [ui1 ctx].
    unfold Uploader.setCoverMutation_fn, await.
    rewrite db_select_ok by done. fold rows.
    rewrite bool_decide_eq_true_2 by done. unfold resolve.
    eexists _, _. split_and!; [done|..|done|done].
    by cbn [fst] in Hcache.
Qed.

Lemma redundant_set_cover_is_noop_witness :
  (∀ w' r,
     Uploader.setCoverMutation_fn imgX (reliable [imgX; imgY; imgZ])
     = (w', r) →
     table w' = [imgX; imgY; imgZ]
     ∧ ∃ e, issued w' = [] ++ [(SelectRows, e)])
  ∧ cache (Uploader.setCoverMutation_onMutate imgX
             (loaded [imgX; imgY; imgZ])).1
    = Some [imgX; imgY; imgZ].
Proof.
  destruct (redundant_set_cover_is_noop imgX (loaded [imgX; imgY; imgZ])
              (reliable [imgX; imgY; imgZ])) as (Hw & Hc & _).
  - left. exists imgX. split; reflexivity.
  - left. exists imgX. split; reflexivity.
  - split; [exact Hw|exact Hc].
Defined.

(** ** Failure and rollback *)

Section failure.
Implicit Types (w : Remote).








End failure.




(** ** Mutations in flight on one cache entry *)

Section session.
Import Session.
Implicit Types (s : Session.t) (a : Action) (k : Kind).

Lemma isPending_false k s : isPending k s = false → k ∉ (pending s).*1.
Proof. unfold isPending. by intros ?%bool_decide_eq_false. Qed.

Lemma disabled_false a k s :
  starts a = Some k → disabled a s = false → k ∉ (pending s).*1.
Proof.
  destruct a; simpl; intros [= <-] Hd; try by apply isPending_false.
  apply orb_false_iff in Hd as [Hd _]. by apply isPending_false.
Qed.

Lemma step_click a k s :
  starts a = Some k → disabled a s = false →
  ∃ ui',
    step a s
    = {| ui := ui';
         pending := pending s
                    ++ [(k, {| prev := default [] (cache (ui s)) |})] |}.
Proof.
  unfold step. intros Hk ->.
  destruct a as [img|x y|img|k' r]; simpl in Hk; [..|done];
    injection Hk as <-; unfold start.
  - eexists. reflexivity.
  - eexists. reflexivity.
  - unfold Uploader.setCoverMutation_onMutate.
    destruct (bool_decide _); eexists; reflexivity.
Qed.

Lemma context_app_l k s ctx l ui' :
  context k s = Some ctx →
  context k {| ui := ui'; pending := pending s ++ l |} = Some ctx.
Proof.
  unfold context. simpl. rewrite filter_app.
  destruct (filter _ (pending s)); [done|]. done.
Qed.

Lemma filter_none {A} (Q : A → Prop) `{!∀ z, Decision (Q z)} (l : list A) :
  Forall (λ z, ¬ Q z) l → filter Q l = [].
Proof.
  induction 1 as [|z l Hz _ IH]; [done|]. by rewrite filter_cons_False.
Qed.

Lemma context_fresh k s ctx ui' :
  k ∉ (pending s).*1 →
  context k {| ui := ui'; pending := pending s ++ [(k, ctx)] |} = Some ctx.
Proof.
  intros Hk. unfold context. simpl. rewrite filter_app.
  rewrite (filter_none _ (pending s)).
  - by rewrite filter_cons_True.
  - apply Forall_forall. intros [k' c] Hin Heq. simpl in Heq. subst k'.
    apply Hk. by apply (list_elem_of_fmap_2 fst) in Hin.
Qed.

Lemma context_filter k k' s ui' :
  k' ≠ k →
  context k {| ui := ui'; pending := filter (λ e, e.1 ≠ k') (pending s) |}
  = context k s.
Proof.
  intros Hne. unfold context. simpl. f_equal. f_equal.
  rewrite list_filter_filter. apply list_filter_iff.
  intros [k0 c]. simpl. naive_solver.
Qed.

(** A pending mutation keeps its context until it settles, whatever else
    is clicked or settles meanwhile. *)
Lemma context_step a k s ctx :
  ¬ settles k a → context k s = Some ctx →
  context k (step a s) = Some ctx.
Proof.
  intros Hns Hctx. unfold step. destruct (disabled a s) eqn:Hd; [done|].
  destruct a as [img|x y|img|k' r]; unfold start.
  - destruct (Uploader.deleteMutation_onMutate _ _).
    by apply context_app_l.
  - destruct (Uploader.reorderMutation_onMutate _ _ _).
    by apply context_app_l.
  - destruct (Uploader.setCoverMutation_onMutate _ _).
    by apply context_app_l.
  - destruct (context k' s); [|done].
    rewrite context_filter; [done|]. simpl in Hns. congruence.
Qed.

Lemma context_steps evs k s ctx :
  Forall (λ a, ¬ settles k a) evs → context k s = Some ctx →
  context k (steps evs s) = Some ctx.
Proof.
  revert s. induction evs as [|a evs IH]; intros s Hall Hctx; [done|].
  apply Forall_cons in Hall as [Ha Hall]. simpl. apply IH; [done|].
  by apply context_step.
Qed.

Lemma step_NoDup a s :
  NoDup (pending s).*1 → NoDup (pending (step a s)).*1.
Proof.
  intros Hnd. destruct (disabled a s) eqn:Hd.
  { unfold step. by rewrite Hd. }
  destruct (starts a) as [k|] eqn:Hk.
  - destruct (step_click a k s Hk Hd) as [ui' ->]. simpl.
    rewrite fmap_app. apply NoDup_app. split_and!; [done| |].
    + intros k' Hin [->|[]%elem_of_nil]%elem_of_cons.
      by apply (disabled_false a k s).
    + apply NoDup_singleton.
  - destruct a as [| | |k r]; try done. unfold step. simpl.
    destruct (context k s); [|done]. simpl.
    eapply sublist_NoDup; [exact Hnd|].
    apply fmap_sublist, sublist_filter.
Qed.

Lemma steps_NoDup evs s :
  NoDup (pending s).*1 → NoDup (pending (steps evs s)).*1.
Proof.
  revert s. induction evs as [|a evs IH]; intros s Hnd; [done|].
  simpl. by apply IH, step_NoDup.
Qed.
End session.

(** The counterexample to C7 as stated: a move is in flight when a delete
    starts, so two snapshots are held for the listing's cache entry; the
    move fails, then the delete fails, and the second rollback restores the
    speculative order of the move that had already been taken back. *)
Lemma snapshots_overlap :
  let s0 := Session.idle [imgX; imgY; imgZ] in
  let s2 := Session.steps [Session.ClickMove imgX imgY;
                           Session.ClickDelete imgZ] s0 in
  let s4 := Session.steps
              [Session.Settle Session.Reorder (Rejected NetworkFailure);
               Session.Settle Session.Delete (Rejected NetworkFailure)]
              s2 in
  (Session.pending s2).*1 = [Session.Reorder; Session.Delete]
  ∧ Session.pending s4 = []
  ∧ cache (Session.ui s4)
    = Some [with_position 0 imgY; with_position 1 imgX; imgZ]
  ∧ cache (Session.ui s4) ≠ cache (Session.ui s0).
Proof. split_and!; try (vm_compute; reflexivity). vm_compute. discriminate. Qed.

(** C7, amended. Each mutation is guarded by its own button only: in every
    reachable state at most one snapshot is pending per mutation (delete,
    move, set cover), and a rollback restores the cache value that was
    current when its own mutation started (the empty list if there was
    none), whatever else was clicked or settled meanwhile. *)
Theorem rollback_restores_own_snapshot :
  (∀ (evs : list Session.Action) (c : list ExistingImage),
     NoDup (Session.pending (Session.steps evs (Session.idle c))).*1)
  ∧ (∀ (s : Session.t) (a : Session.Action) (k : Session.Kind)
       (evs : list Session.Action) (e : Failure),
       Session.starts a = Some k →
       Session.disabled a s = false →
       Forall (λ ev, ¬ Session.settles k ev) evs →
       cache (Session.ui
                (Session.step (Session.Settle k (Rejected e))
                   (Session.steps evs (Session.step a s))))
       = Some (default [] (cache (Session.ui s)))).
Proof.
  split.
  - intros evs c. apply steps_NoDup. simpl. constructor.
  - intros s a k evs e Hk Hd Hevs.
    destruct (step_click a k s Hk Hd) as [ui' Hstep].
    assert (Session.context k (Session.steps evs (Session.step a s))
            = Some {| prev := default [] (cache (Session.ui s)) |}) as Hctx.
    { apply context_steps; [done|]. rewrite Hstep.
      apply context_fresh. by apply (disabled_false a k s). }
    unfold Session.step at 1. cbn [Session.disabled]. rewrite Hctx.
    cbn [Session.ui]. by destruct k.
Qed.

Lemma rollback_restores_own_snapshot_witness :
  cache (Session.ui
           (Session.step
              (Session.Settle Session.Delete (Rejected NetworkFailure))
              (Session.steps
                 [Session.Settle Session.Reorder (Rejected NetworkFailure)]
                 (Session.step (Session.ClickDelete imgZ)
                    (Session.step (Session.ClickMove imgX imgY)
                       (Session.idle [imgX; imgY; imgZ]))))))
  = Some (default []
            (cache (Session.ui
                      (Session.step (Session.ClickMove imgX imgY)
                         (Session.idle [imgX; imgY; imgZ]))))).
Proof.
  apply (proj2 rollback_restores_own_snapshot _ (Session.ClickDelete imgZ)
           Session.Delete).
  - reflexivity.
  - vm_compute. reflexivity.
  - repeat constructor. simpl. discriminate.
Defined.

(** ** The favorite toggle *)

Section favorites.
Import ListingsPage.
Implicit Types (w : Remote) (pg : Page) (l u : string) (c : gset string).

Lemma fav_insert_ok l w :
  lossless w → l ∉ favorites w →
  fav_insert l w
  = ({| table := table w; favorites := favorites w ∪ {[l]};
        issued := issued w ++ [(InsertFavorite l, None)];
        plan := tail (plan w) |}, Resolved tt).
Proof.
  intros Hl Hout. unfold fav_insert, request_on.
  by rewrite lossless_head, bool_decide_eq_false_2.
Qed.

Lemma fav_delete_ok l w :
  lossless w →
  fav_delete l w
  = ({| table := table w; favorites := favorites w ∖ {[l]};
        issued := issued w ++ [(DeleteFavorite l, None)];
        plan := tail (plan w) |}, Resolved tt).
Proof. intros Hl. unfold fav_delete, request_on. by rewrite lossless_head. Qed.

(** A click on an enabled button while [l] is not saved: the cache gets
    [l] and an insert is issued. *)
Lemma click_save u l c w :
  lossless w → l ∉ c → l ∉ favorites w →
  step (Click l)
    {| userId := Some u; favCache := Some c; favSet := Some c;
       isPending := false; running := None; shown := None; backend := w |}
  = {| userId := Some u; favCache := Some (c ∪ {[l]});
       favSet := Some (c ∪ {[l]}); isPending := true;
       running := Some ({| prev := Some c |}, Resolved tt); shown := None;
       backend :=
         {| table := table w; favorites := favorites w ∪ {[l]};
            issued := issued w ++ [(InsertFavorite l, None)];
            plan := tail (plan w) |} |}.
Proof.
  intros Hl Hc Hw. unfold step, disabled, toggleFavorite_onMutate,
    toggleFavorite_fn. simpl.
  rewrite !bool_decide_eq_false_2 by done.
  by rewrite fav_insert_ok.
Qed.

(** A click on an enabled button while [l] is saved: the cache loses [l]
    and a delete is issued. *)
Lemma click_unsave u l c w :
  lossless w → l ∈ c →
  step (Click l)
    {| userId := Some u; favCache := Some c; favSet := Some c;
       isPending := false; running := None; shown := None; backend := w |}
  = {| userId := Some u; favCache := Some (c ∖ {[l]});
       favSet := Some (c ∖ {[l]}); isPending := true;
       running := Some ({| prev := Some c |}, Resolved tt); shown := None;
       backend :=
         {| table := table w; favorites := favorites w ∖ {[l]};
            issued := issued w ++ [(DeleteFavorite l, None)];
            plan := tail (plan w) |} |}.
Proof.
  intros Hl Hc. unfold step, disabled, toggleFavorite_onMutate,
    toggleFavorite_fn. simpl.
  rewrite !bool_decide_eq_true_2 by done.
  by rewrite fav_delete_ok.
Qed.

Lemma settle_resolved u c b ctx w :
  step Settle
    {| userId := Some u; favCache := Some c; favSet := Some c;
       isPending := b; running := Some (ctx, Resolved tt); shown := None;
       backend := w |}
  = {| userId := Some u; favCache := Some c; favSet := Some c;
       isPending := false; running := None; shown := None; backend := w |}.
Proof. done. Qed.

Lemma click_while_pending l pg : isPending pg = true → step (Click l) pg = pg.
Proof.
  intros Hp. unfold step, disabled. rewrite Hp.
  by rewrite orb_true_r.
Qed.
End favorites.

(** The counterexample to C8 as stated: the second of two rapid toggles
    meets a disabled button; one insert is issued and the cache says
    "saved". *)
Lemma second_toggle_is_blocked :
  let pg := ListingsPage.steps
              [ListingsPage.Click "L"; ListingsPage.Click "L"]
              (ListingsPage.at_rest "u" (Some ∅) ∅ []) in
  issued (ListingsPage.backend pg) = [(InsertFavorite "L", None)]
  ∧ ListingsPage.favCache pg = Some {["L"]}
  ∧ ListingsPage.isPending pg = true.
Proof. split_and!; vm_compute; reflexivity. Qed.

(** C8, amended. While a toggle is pending the favorite button is
    disabled, so a second click changes nothing and issues nothing. Two
    toggles of a listing that is not saved, the second clicked after the
    first has settled, each take the membership from the cached set: the
    cache ends "not saved" and exactly two requests are issued, an insert
    then a delete. *)
Theorem double_toggle (u l : string) (c : gset string) (p : list bool) :
  l ∉ c → Forall (λ b, b = false) p →
  let pg0 := ListingsPage.at_rest u (Some c) c p in
  (∀ l', ListingsPage.step (ListingsPage.Click l')
           (ListingsPage.step (ListingsPage.Click l) pg0)
         = ListingsPage.step (ListingsPage.Click l) pg0)
  ∧ let pg := ListingsPage.steps
                [ListingsPage.Click l; ListingsPage.Settle;
                 ListingsPage.Click l; ListingsPage.Settle] pg0 in
    ListingsPage.favCache pg = Some c
    ∧ issued (ListingsPage.backend pg)
      = [(InsertFavorite l, None); (DeleteFavorite l, None)]
    ∧ favorites (ListingsPage.backend pg) = c.
Proof.
  intros Hl Hp pg0.
  assert (ListingsPage.step (ListingsPage.Click l) pg0
          = {| ListingsPage.userId := Some u;
               ListingsPage.favCache := Some (c ∪ {[l]});
               ListingsPage.favSet := Some (c ∪ {[l]});
               ListingsPage.isPending := true;
               ListingsPage.running :=
                 Some ({| ListingsPage.prev := Some c |}, Resolved tt);
               ListingsPage.shown := None;
               ListingsPage.backend :=
                 {| table := []; favorites := c ∪ {[l]};
                    issued := [(InsertFavorite l, None)];
                    plan := tail p |} |}) as Hfirst.
  { unfold pg0, ListingsPage.at_rest. by rewrite click_save. }
  split.
  - intros l'. rewrite Hfirst. by apply click_while_pending.
  - unfold ListingsPage.steps. cbn [foldl flip]. rewrite Hfirst.
    rewrite settle_resolved.
    rewrite click_unsave; [|still_lossless|set_solver].
    rewrite settle_resolved.
    cbn [ListingsPage.favCache ListingsPage.backend favorites issued].
    assert ((c ∪ {[l]}) ∖ {[l]} = c) as -> by set_solver.
    done.
Qed.

Lemma double_toggle_witness :
  let pg0 := ListingsPage.at_rest "u" (Some ∅) ∅ [] in
  (∀ l', ListingsPage.step (ListingsPage.Click l')
           (ListingsPage.step (ListingsPage.Click "L") pg0)
         = ListingsPage.step (ListingsPage.Click "L") pg0)
  ∧ let pg := ListingsPage.steps
                [ListingsPage.Click "L"; ListingsPage.Settle;
                 ListingsPage.Click "L"; ListingsPage.Settle] pg0 in
    ListingsPage.favCache pg = Some ∅
    ∧ issued (ListingsPage.backend pg)
      = [(InsertFavorite "L", None); (DeleteFavorite "L", None)]
    ∧ favorites (ListingsPage.backend pg) = ∅.
Proof.
  apply (double_toggle "u" "L" ∅ []).
  - apply (bool_decide_unpack _). vm_compute. reflexivity.
  - constructor.
Defined.

(** * Further properties of the code *)

(** ** [sortByPosition] and [normalizePositions] *)

(** X1. [sortByPosition] returns the same images, in ascending order of
    position, and sorting again changes nothing. *)
Theorem sortByPosition_sorted_permutation (l : list ExistingImage) :
  sortByPosition l ≡ₚ l
  ∧ StronglySorted le_position (sortByPosition l)
  ∧ sortByPosition (sortByPosition l) = sortByPosition l.
Proof.
  split_and!.
  - apply sortByPosition_perm.
  - apply sortByPosition_sorted.
  - apply sortByPosition_idemp.
Qed.

(** X2. The sort is stable: the images that share a position come out in the
    order they had in the input. *)
Theorem sortByPosition_stable (p : Z) (l : list ExistingImage) :
  filter (λ x, position x = p) (sortByPosition l)
  = filter (λ x, position x = p) l.
Proof.
  rewrite <-sortByPosition_filter. apply sortByPosition_id.
  induction l as [|x l IH]; [constructor|].
  destruct (decide (position x = p)) as [Hx|Hx].
  - rewrite filter_cons_True by done. constructor; [done|].
    apply Forall_forall. intros y [Hy _]%list_elem_of_filter.
    unfold le_position. lia.
  - by rewrite filter_cons_False.
Qed.

(** X3. [normalizePositions] keeps the images in sorted order, gives them the
    positions [0 .. n-1], and is idempotent. *)
Theorem normalizePositions_canonical (l : list ExistingImage) :
  ids (normalizePositions l) = ids (sortByPosition l)
  ∧ positions (normalizePositions l) = Z.of_nat <$> seq 0 (length l)
  ∧ normalizePositions (normalizePositions l) = normalizePositions l.
Proof.
  split_and!.
  - apply ids_renumber.
  - unfold normalizePositions.
    by rewrite positions_renumber, sortByPosition_length.
  - apply normalizePositions_of_settled, normalizePositions_settled.
Qed.

(** ** Upload positions *)





(** X5. From a settled list of [n] images, an upload of [k] files gives the
    positions [n .. n+k-1]: the longer list is settled again. *)
Theorem upload_extends_settled (l : list ExistingImage) (k : nat) :
  settled l →
  Uploader.startPos l = Z.of_nat (length l)
  ∧ positions l ++ Uploader.uploadedPositions l k
    = Z.of_nat <$> seq 0 (length l + k).
Proof.
  intros Hs. split; [by apply startPos_settled|].
  by apply uploadedPositions_settled.
Qed.

Lemma upload_extends_settled_witness :
  Uploader.startPos [imgX; imgY; imgZ] = 3%Z
  ∧ positions [imgX; imgY; imgZ]
    ++ Uploader.uploadedPositions [imgX; imgY; imgZ] 2
    = Z.of_nat <$> seq 0 (3 + 2).
Proof. apply (upload_extends_settled [imgX; imgY; imgZ] 2). reflexivity. Defined.

(** ** Moving an image up or down *)

Section moving.
Implicit Types (a b x : ExistingImage) (l t prev : list ExistingImage).

Lemma positions_of_sorted l :
  StronglySorted le_position l → StronglySorted Z.le (positions l).
Proof.
  induction 1 as [|x l Hl IH Hx]; [constructor|].
  unfold positions. rewrite fmap_cons. constructor; [done|].
  by rewrite Forall_fmap.
Qed.

Lemma sorted_same_positions l l' :
  positions l' = positions l →
  StronglySorted le_position l → StronglySorted le_position l'.
Proof.
  intros Heq Hs. apply sorted_of_positions. rewrite Heq.
  by apply positions_of_sorted.
Qed.


Lemma swapped_elsewhere a b l :
  id a ∉ ids l → id b ∉ ids l → swapped a b l = l.
Proof.
  intros Ha Hb. unfold swapped. rewrite <-(list_fmap_id l) at 2.
  apply list_fmap_ext. intros _ x Hx%list_elem_of_lookup_2. simpl.
  apply (list_elem_of_fmap_2 id) in Hx.
  rewrite !bool_decide_eq_false_2; [done|..]; intros Heq;
    rewrite Heq in Hx; done.
Qed.

Lemma swapped_neighbours a b l1 l2 :
  NoDup (ids (l1 ++ a :: b :: l2)) →
  swapped a b (l1 ++ a :: b :: l2)
  = l1 ++ with_position (position b) a
       :: with_position (position a) b :: l2.
Proof.
  intros Hnd. unfold ids in Hnd. rewrite fmap_app, !fmap_cons in Hnd.
  apply NoDup_app in Hnd as (_ & Hl1 & Hnd).
  apply NoDup_cons in Hnd as [Ha Hnd]. apply NoDup_cons in Hnd as [Hb _].
  apply not_elem_of_cons in Ha as [Hab Ha].
  assert (id a ∉ ids l1 ∧ id b ∉ ids l1) as [Ha1 Hb1].
  { split; intros Hin; apply (Hl1 _ Hin); set_solver. }
  assert (swapped a b (l1 ++ a :: b :: l2)
          = swapped a b l1 ++ swapped a b [a; b] ++ swapped a b l2) as ->.
  { unfold swapped. by rewrite fmap_app. }
  rewrite (swapped_elsewhere a b l1), (swapped_elsewhere a b l2) by done.
  unfold swapped. rewrite !fmap_cons. cbn [fmap list_fmap].
  rewrite (bool_decide_eq_true_2 (id a = id a)) by done.
  rewrite (bool_decide_eq_false_2 (id b = id a)) by done.
  by rewrite (bool_decide_eq_true_2 (id b = id b)) by done.
Qed.
End moving.

Section reorder_cache.
Implicit Types (a b x : ExistingImage) (l t prev : list ExistingImage).
Implicit Types (ui : Ui) (w : Remote).

Lemma reorder_neighbours_cache a b l1 l2 ui :
  let prev := l1 ++ a :: b :: l2 in
  cache ui = Some prev →
  NoDup (ids prev) → NoDup (positions prev) →
  StronglySorted le_position prev →
  cache (Uploader.reorderMutation_onMutate a b ui).1
  = Some (l1 ++ with_position (position a) b
             :: with_position (position b) a :: l2).
Proof.
  intros prev Hc Hids Hpos Hsorted.
  unfold Uploader.reorderMutation_onMutate.
  cbn [setErrorMsg cache fst setQueryData]. rewrite Hc.
  change (default [] (Some prev)) with prev. f_equal.
  change (sortByPosition (swapped a b prev) = 
          l1 ++ with_position (position a) b
             :: with_position (position b) a :: l2).
  unfold prev. rewrite swapped_neighbours by done.
  assert (positions (l1 ++ with_position (position a) b
                        :: with_position (position b) a :: l2)
          = positions prev) as Heq.
  { unfold prev, positions. by rewrite !fmap_app, !fmap_cons. }
  apply sortByPosition_unique.
  - by rewrite Heq.
  - by apply (sorted_same_positions prev).
  - f_equiv. apply Permutation_swap.
Qed.

Lemma swap_prefixes a b t k :
  NoDup (ids t) → NoDup (positions t) → Uploader.temp ∉ positions t →
  a ∈ t → b ∈ t → id a ≠ id b →
  NoDup (positions
           (apply_writes
              (take k [(id a, Uploader.temp); (id b, position a);
                       (id a, position b)]) t)).
Proof.
  intros Hids Hpos Htemp Ha Hb Hab.
  destruct k as [|[|[|k]]]; cbn [take]; rewrite ?take_nil; simpl.
  - done.
  - by apply swap_step1.
  - by apply swap_step2.
  - by apply swap_step3.
Qed.

Lemma reorderMutation_fn_ok a b w :
  lossless w →
  NoDup (ids (table w)) → NoDup (positions (table w)) →
  Uploader.temp ∉ positions (table w) →
  a ∈ table w → b ∈ table w → id a ≠ id b →
  ∃ w', Uploader.reorderMutation_fn a b w = (w', Resolved tt)
        ∧ table w' = swapped a b (table w)
        ∧ favorites w' = favorites w
        ∧ lossless w'
        ∧ NoDup (positions (table w')).
Proof.
  intros Hl Hids Hpos Htemp Ha Hb Hab.
  rewrite reorderMutation_fn_all.
  rewrite write_all_ok; [|done..|intros k _; by apply swap_prefixes].
  eexists. split_and!; [done|fields..].
  - by apply swap_closed.
  - done.
  - still_lossless.
  - by apply (swap_prefixes a b _ 3).
Qed.
End reorder_cache.

(** X6. Moving an image down (or its neighbour up) exchanges the two
    neighbours in the cached list and gives each the other's position; the
    positions of the list as a whole stay as they were. *)
Theorem move_exchanges_neighbours (a b : ExistingImage)
    (l1 l2 : list ExistingImage) (ui : Ui) :
  let prev := l1 ++ a :: b :: l2 in
  cache ui = Some prev →
  NoDup (ids prev) → NoDup (positions prev) →
  StronglySorted le_position prev →
  ∃ next,
    cache (Uploader.reorderMutation_onMutate a b ui).1 = Some next
    ∧ next = l1 ++ with_position (position a) b
                :: with_position (position b) a :: l2
    ∧ positions next = positions prev.
Proof.
  intros prev Hc Hids Hpos Hsorted. eexists. split_and!.
  - by apply reorder_neighbours_cache.
  - done.
  - unfold prev, positions. by rewrite !fmap_app, !fmap_cons.
Qed.

Lemma move_exchanges_neighbours_witness :
  ∃ next,
    cache (Uploader.reorderMutation_onMutate imgY imgZ
             (loaded ([imgX] ++ imgY :: imgZ :: []))).1 = Some next
    ∧ next = [imgX] ++ with_position (position imgY) imgZ
                    :: with_position (position imgZ) imgY :: []
    ∧ positions next = positions ([imgX] ++ imgY :: imgZ :: []).
Proof.
  apply (move_exchanges_neighbours imgY imgZ [imgX] []).
  - reflexivity.
  - apply (bool_decide_unpack _). vm_compute. reflexivity.
  - apply (bool_decide_unpack _). vm_compute. reflexivity.
  - apply (bool_decide_unpack _). vm_compute. reflexivity.
Defined.

(** X7. Round trip in the cache: moving an image down and then up again (the
    second move is given the two images as the cache now holds them) puts
    the cached list back as it was. *)
Theorem move_down_then_up (a b : ExistingImage)
    (l1 l2 : list ExistingImage) (ui : Ui) :
  let prev := l1 ++ a :: b :: l2 in
  cache ui = Some prev →
  NoDup (ids prev) → NoDup (positions prev) →
  StronglySorted le_position prev →
  let ui1 := (Uploader.reorderMutation_onMutate a b ui).1 in
  let a' := with_position (position b) a in
  let b' := with_position (position a) b in
  cache ui1 = Some (l1 ++ b' :: a' :: l2)
  ∧ cache (Uploader.reorderMutation_onMutate b' a' ui1).1 = Some prev.
Proof.
  intros prev Hc Hids Hpos Hsorted ui1 a' b'.
  assert (cache ui1 = Some (l1 ++ b' :: a' :: l2)) as Hc1.
  { by apply reorder_neighbours_cache. }
  split; [done|].
  assert (positions (l1 ++ b' :: a' :: l2) = positions prev) as Heq.
  { unfold prev, positions. by rewrite !fmap_app, !fmap_cons. }
  rewrite (reorder_neighbours_cache b' a' l1 l2 ui1 Hc1).
  - unfold a', b'. by destruct a, b.
  - unfold ids in *. unfold prev in Hids.
    rewrite fmap_app, !fmap_cons in *. cbn [id with_position] in *.
    revert Hids. apply NoDup_Permutation_proper. f_equiv.
    apply Permutation_swap.
  - by rewrite Heq.
  - by apply (sorted_same_positions prev).
Qed.

Lemma move_down_then_up_witness :
  let ui1 := (Uploader.reorderMutation_onMutate imgX imgY
                (loaded ([] ++ imgX :: imgY :: [imgZ]))).1 in
  let a' := with_position (position imgY) imgX in
  let b' := with_position (position imgX) imgY in
  cache ui1 = Some ([] ++ b' :: a' :: [imgZ])
  ∧ cache (Uploader.reorderMutation_onMutate b' a' ui1).1
    = Some ([] ++ imgX :: imgY :: [imgZ]).
Proof.
  apply (move_down_then_up imgX imgY [] [imgZ]).
  - reflexivity.
  - apply (bool_decide_unpack _). vm_compute. reflexivity.
  - apply (bool_decide_unpack _). vm_compute. reflexivity.
  - apply (bool_decide_unpack _). vm_compute. reflexivity.
Defined.



(** ** Interrupted mutations *)

Section interrupted.
Implicit Types (a b c x img : ExistingImage) (t prev : list ExistingImage).
Implicit Types (ui : Ui) (w : Remote).

Lemma request_lost {A} call (serve : _ → Outcome (_ * A)) w :
  head (plan w) = Some true →
  request call serve w
  = ({| table := table w; favorites := favorites w;
        issued := issued w ++ [(call, Some NetworkFailure)];
        plan := tail (plan w) |}, Rejected NetworkFailure).
Proof. intros Hh. unfold request, request_on. by rewrite Hh. Qed.

Lemma request_served {A} call (serve : _ → Outcome (_ * A)) w t' (r : A) :
  head (plan w) = Some false → serve (table w) = Resolved (t', r) →
  request call serve w
  = ({| table := t'; favorites := favorites w;
        issued := issued w ++ [(call, None)];
        plan := tail (plan w) |}, Resolved r).
Proof. intros Hh Hs. unfold request, request_on. by rewrite Hh, Hs. Qed.

Lemma temp_below_offset : (Uploader.temp < 1000)%Z.
Proof. done. Qed.

(** The swap whose second write is lost. *)
Lemma reorderMutation_fn_interrupted a b w rest :
  plan w = false :: true :: rest →
  NoDup (ids (table w)) → NoDup (positions (table w)) →
  Uploader.temp ∉ positions (table w) →
  Uploader.reorderMutation_fn a b w
  = ({| table := set_position_of (id a) Uploader.temp (table w);
        favorites := favorites w;
        issued := issued w
                  ++ [(UpdatePosition (id a) Uploader.temp, None);
                      (UpdatePosition (id b) (position a),
                       Some NetworkFailure)];
        plan := rest |}, Rejected NetworkFailure).
Proof.
  intros Hplan Hids Hpos Htemp.
  unfold Uploader.reorderMutation_fn, await, db_update.
  erewrite request_served; [|by rewrite Hplan|].
  2:{ rewrite no_collision; [done..|]. by apply swap_step1. }
  rewrite request_lost; fields; [|by rewrite Hplan].
  rewrite Hplan. cbn [tail]. by rewrite <-app_assoc.
Qed.
End interrupted.

(** X9. A swap interrupted after its first write leaves the first image parked
    on the sentinel in the store, every other row as it was, while the
    cache is rolled back to the order before the swap. *)
Theorem interrupted_swap_parks_on_sentinel (a b : ExistingImage) (ui : Ui)
    (w : Remote) (rest : list bool) :
  plan w = false :: true :: rest →
  NoDup (ids (table w)) → NoDup (positions (table w)) →
  Uploader.temp ∉ positions (table w) →
  ∃ ui' w',
    Uploader.reorderMutation a b (ui, w) = (ui', w', Rejected NetworkFailure)
    ∧ table w' = set_position_of (id a) Uploader.temp (table w)
    ∧ cache ui' = Some (default [] (cache ui))
    ∧ errorMsg ui' = Some "Failed to fetch".
Proof.
  intros Hplan Hids Hpos Htemp.
  unfold Uploader.reorderMutation, Uploader.run. cbn [fst snd].
  destruct (Uploader.reorderMutation_onMutate a b ui) as [ui1 ctx] eqn:Hm.
  assert (ctx = {| prev := default [] (cache ui) |}) as ->.
  { unfold Uploader.reorderMutation_onMutate in Hm. by injection Hm. }
  rewrite (reorderMutation_fn_interrupted a b w rest) by done.
  eexists _, _. split_and!; done.
Qed.

Lemma interrupted_swap_parks_on_sentinel_witness :
  ∃ ui' w',
    Uploader.reorderMutation imgX imgY
      (loaded [imgX; imgY; imgZ],
       {| table := [imgX; imgY; imgZ]; favorites := ∅; issued := [];
          plan := [false; true] |})
    = (ui', w', Rejected NetworkFailure)
    ∧ table w'
      = set_position_of (id imgX) Uploader.temp [imgX; imgY; imgZ]
    ∧ cache ui' = Some (default [] (Some [imgX; imgY; imgZ]))
    ∧ errorMsg ui' = Some "Failed to fetch".
Proof.
  apply (interrupted_swap_parks_on_sentinel imgX imgY
           (loaded [imgX; imgY; imgZ])
           {| table := [imgX; imgY; imgZ]; favorites := ∅; issued := [];
              plan := [false; true] |} []).
  - reflexivity.
  - apply (bool_decide_unpack _). vm_compute. reflexivity.
  - apply (bool_decide_unpack _). vm_compute. reflexivity.
  - apply (bool_decide_unpack _). vm_compute. reflexivity.
Defined.



(** ** Delete and set cover against the store *)



(** X12. A delete whose row removal went through but whose read-back is lost
    is rolled back in the cache only: the image is back in the cached list
    although its row is gone from the store. *)
Theorem delete_rolled_back_after_row_removed (img : ExistingImage)
    (prev : list ExistingImage) (ui : Ui) (w : Remote) (s : bool)
    (rest : list bool) :
  cache ui = Some prev →
  plan w = false :: s :: true :: rest →
  ∃ ui' w',
    Uploader.deleteMutation img (ui, w) = (ui', w', Rejected NetworkFailure)
    ∧ table w' = filter (λ r, id r ≠ id img) (table w)
    ∧ id img ∉ ids (table w')
    ∧ cache ui' = Some prev.
Proof.
  intros Hc Hplan.
  assert (∃ w', Uploader.deleteMutation_fn img w
                = (w', Rejected NetworkFailure)
                ∧ table w' = filter (λ r, id r ≠ id img) (table w))
    as (w' & Hrun & Ht).
  { unfold Uploader.deleteMutation_fn, await, db_delete, best_effort,
      storage_remove, db_select.
    erewrite request_served; [|by rewrite Hplan|done].
    destruct s.
    - rewrite (request_lost (RemoveObjects _ _));
        [|fields; by rewrite Hplan].
      rewrite request_lost; [|fields; by rewrite Hplan].
      eexists. split; [done|]. done.
    - erewrite (request_served (RemoveObjects _ _));
        [|fields; by rewrite Hplan|done].
      rewrite request_lost; [|fields; by rewrite Hplan].
      eexists. split; [done|]. done. }
  unfold Uploader.deleteMutation, Uploader.run,
    Uploader.deleteMutation_onMutate.
  cbn [fst snd setErrorMsg cache]. rewrite Hrun, Hc.
  eexists _, _. split_and!; [done|done| |done].
  rewrite Ht. intros (r & Hid & Hr)%list_elem_of_fmap.
  by apply list_elem_of_filter in Hr as [Hne _].
Qed.

Lemma delete_rolled_back_after_row_removed_witness :
  ∃ ui' w',
    Uploader.deleteMutation imgY
      (loaded [imgX; imgY; imgZ],
       {| table := [imgX; imgY; imgZ]; favorites := ∅; issued := [];
          plan := [false; false; true] |})
    = (ui', w', Rejected NetworkFailure)
    ∧ table w' = filter (λ r, id r ≠ id imgY) [imgX; imgY; imgZ]
    ∧ id imgY ∉ ids (table w')
    ∧ cache ui' = Some [imgX; imgY; imgZ].
Proof.
  apply (delete_rolled_back_after_row_removed imgY [imgX; imgY; imgZ]
           (loaded [imgX; imgY; imgZ])
           {| table := [imgX; imgY; imgZ]; favorites := ∅; issued := [];
              plan := [false; false; true] |} false []).
  - reflexivity.
  - reflexivity.
Defined.

Lemma seq_snoc_perm (n : nat) :
  Z.of_nat <$> seq 0 (S n) ≡ₚ Z.of_nat n :: (Z.of_nat <$> seq 0 n).
Proof.
  rewrite seq_S, fmap_app. simpl.
  by rewrite Permutation_app_comm.
Qed.

(** X13. The delete of the plain uploader keeps a gapless parent gapless
    exactly when the deleted image was the last one. *)
Theorem plain_delete_gapless_iff_last (img : ExistingImage) (w : Remote) :
  lossless w → NoDup (ids (table w)) → gapless (table w) →
  img ∈ table w →
  ∃ w',
    PlainUploader.deleteMutation_fn img w = (w', Resolved tt)
    ∧ table w' = filter (λ r, id r ≠ id img) (table w)
    ∧ (gapless (table w')
       ↔ position img = Z.of_nat (length (table w) - 1)).
Proof.
  intros Hl Hids Hg Hin.
  unfold PlainUploader.deleteMutation_fn, await.
  rewrite db_delete_ok by done.
  rewrite storage_remove_ok by still_lossless.
  eexists. split_and!; [done|done|]. fields.
  apply list_elem_of_lookup in Hin as [i Hi].
  rewrite (filter_ne_delete _ i img) by done.
  assert (table w ≡ₚ img :: delete i (table w)) as Hp
    by by apply delete_Permutation.
  assert (length (table w) = S (length (delete i (table w)))) as Hlen
    by by rewrite Hp at 1.
  set (t' := delete i (table w)) in *.
  unfold gapless in *. rewrite Hlen in *.
  unfold positions in Hg. rewrite Hp, fmap_cons in Hg.
  fold (positions t') in Hg. rewrite seq_snoc_perm in Hg.
  replace (S (length t') - 1) with (length t') by lia.
  split.
  - intros Hg'. rewrite Hg' in Hg.
    assert (NoDup (position img :: (Z.of_nat <$> seq 0 (length t'))))
      as Hnd.
    { rewrite Hg, <-seq_snoc_perm. apply seq_NoDup. }
    apply NoDup_cons in Hnd as [Hout _].
    assert (position img
            ∈ Z.of_nat (length t') :: (Z.of_nat <$> seq 0 (length t')))
      as Hmem by (rewrite <-Hg; left).
    by apply elem_of_cons in Hmem as [?|?].
  - intros Heq. rewrite Heq in Hg. by apply (inj (cons _)) in Hg.
Qed.

Lemma plain_delete_gapless_iff_last_witness :
  ∃ w',
    PlainUploader.deleteMutation_fn imgZ (reliable [imgX; imgY; imgZ])
    = (w', Resolved tt)
    ∧ table w' = filter (λ r, id r ≠ id imgZ) [imgX; imgY; imgZ]
    ∧ (gapless (table w')
       ↔ position imgZ = Z.of_nat (length [imgX; imgY; imgZ] - 1)).
Proof.
  apply (plain_delete_gapless_iff_last imgZ (reliable [imgX; imgY; imgZ])).
  - constructor.
  - apply (bool_decide_unpack _). vm_compute. reflexivity.
  - unfold gapless. simpl. reflexivity.
  - apply (bool_decide_unpack _). vm_compute. reflexivity.
Defined.





(** ** The edit form: moving an image in the form state *)

Section form_moves.
Implicit Types (x y : ExistingImage) (l prev : list ExistingImage).
Implicit Types (del : list string).

Lemma splice_in_perm {A} (i : nat) (a : A) (m : list A) :
  ListingForm.splice_in i a m ≡ₚ a :: m.
Proof.
  unfold ListingForm.splice_in.
  by rewrite <-Permutation_middle, take_drop.
Qed.

(** The indices of the visible images, counted from [k]. *)
Lemma visible_index del k l n i :
  (snd <$> filter (λ xi : ExistingImage * nat, id xi.1 ∉ del)
             (imap (λ j x, (x, k + j)) l)) !! n = Some i →
  ∃ j x, i = k + j ∧ l !! j = Some x ∧ id x ∉ del
         ∧ length (filter (λ x, id x ∉ del) (take j l)) = n.
Proof.
  revert k n. induction l as [|y l IH]; intros k n; [done|].
  rewrite imap_cons.
  assert (imap ((λ j x, (x, k + j)) ∘ S) l
          = imap (λ j x, (x, S k + j)) l) as ->.
  { apply imap_ext. intros j x _. simpl. f_equal. lia. }
  destruct (decide (id y ∉ del)) as [Hy|Hy].
  - rewrite filter_cons_True by done. rewrite fmap_cons.
    destruct n as [|n]; simpl.
    + intros [= <-]. exists 0, y. split_and!; [lia|done..].
    + intros (j & x & -> & Hj & Hx & Hn)%(IH (S k)).
      exists (S j), x. split_and!; [lia|done..|].
      simpl. rewrite filter_cons_True by done. simpl. by rewrite Hn.
  - rewrite filter_cons_False by done.
    intros (j & x & -> & Hj & Hx & Hn)%(IH (S k)).
    exists (S j), x. split_and!; [lia|done..|].
    simpl. by rewrite filter_cons_False by done.
Qed.

Lemma visible_index_0 del l n i :
  (snd <$> filter (λ xi : ExistingImage * nat, id xi.1 ∉ del)
             (imap (λ j x, (x, j)) l)) !! n = Some i →
  ∃ x, l !! i = Some x ∧ id x ∉ del
       ∧ length (filter (λ x, id x ∉ del) (take i l)) = n.
Proof.
  intros Hn. destruct (visible_index del 0 l n i) as (j & x & -> & ?);
    [|by exists x].
  rewrite <-Hn. do 3 f_equal.
Qed.

Lemma filter_take_prefix {A} (P : A → Prop) `{!∀ a, Decision (P a)}
    (i : nat) (m : list A) :
  filter P (take i m) = take (length (filter P (take i m))) (filter P m)
  ∧ filter P (drop i m) = drop (length (filter P (take i m))) (filter P m).
Proof.
  assert (filter P m = filter P (take i m) ++ filter P (drop i m)) as ->
    by by rewrite <-filter_app, take_drop.
  split.
  - by rewrite take_app_length.
  - by rewrite drop_app_length.
Qed.

Lemma filter_delete_visible {A} (P : A → Prop) `{!∀ a, Decision (P a)}
    (i : nat) (a : A) (m : list A) :
  m !! i = Some a → P a →
  filter P (delete i m) = delete (length (filter P (take i m))) (filter P m).
Proof.
  intros Hi Ha. rewrite delete_take_drop, filter_app.
  assert (filter P m
          = filter P (take i m) ++ a :: filter P (drop (S i) m)) as ->.
  { rewrite <-(take_drop_middle m i a Hi) at 1.
    by rewrite filter_app, filter_cons_True by done. }
  rewrite delete_take_drop, take_app_length.
  f_equal. rewrite drop_app_ge by lia.
  by replace (S _ - _) with 1 by lia.
Qed.

Lemma visible_items del k l :
  (filter (λ xi : ExistingImage * nat, id xi.1 ∉ del)
     (imap (λ j x, (x, k + j)) l)).*1
  = filter (λ x, id x ∉ del) l.
Proof.
  revert k. induction l as [|y l IH]; intros k; [done|].
  rewrite imap_cons.
  assert (imap ((λ j x, (x, k + j)) ∘ S) l
          = imap (λ j x, (x, S k + j)) l) as ->.
  { apply imap_ext. intros j x _. simpl. f_equal. lia. }
  destruct (decide (id y ∉ del)) as [Hy|Hy].
  - rewrite !filter_cons_True by done. rewrite fmap_cons.
    simpl. f_equal. apply (IH (S k)).
  - rewrite !filter_cons_False by done. apply (IH (S k)).
Qed.

Lemma visible_count del l :
  length (snd <$> filter (λ xi : ExistingImage * nat, id xi.1 ∉ del)
                    (imap (λ j x, (x, j)) l))
  = length (filter (λ x, id x ∉ del) l).
Proof.
  rewrite <-(visible_items del 0 l), !length_fmap. do 2 f_equal.
Qed.

Lemma visible_at del l i x :
  l !! i = Some x → id x ∉ del →
  filter (λ x, id x ∉ del) l
    !! length (filter (λ x, id x ∉ del) (take i l)) = Some x.
Proof.
  intros Hi Hx.
  assert (filter (λ x, id x ∉ del) l
          = filter (λ x, id x ∉ del) (take i l)
            ++ x :: filter (λ x, id x ∉ del) (drop (S i) l)) as ->.
  { rewrite <-(take_drop_middle l i x Hi) at 1.
    by rewrite filter_app, filter_cons_True by done. }
  by rewrite list_lookup_middle.
Qed.

(** What [moveExisting] does when both indices are on screen. *)
Lemma moveExisting_unfold del from to prev :
  from < length (filter (λ x, id x ∉ del) prev) →
  to < length (filter (λ x, id x ∉ del) prev) →
  ∃ f t x y,
    prev !! f = Some x ∧ id x ∉ del
    ∧ length (filter (λ x, id x ∉ del) (take f prev)) = from
    ∧ prev !! t = Some y ∧ id y ∉ del
    ∧ length (filter (λ x, id x ∉ del) (take t prev)) = to
    ∧ ListingForm.moveExisting del from to prev
      = ListingForm.splice_in t x (delete f prev).
Proof.
  intros Hf Ht. rewrite <-visible_count in Hf, Ht.
  apply lookup_lt_is_Some_2 in Hf as [f Hf].
  apply lookup_lt_is_Some_2 in Ht as [t Ht].
  destruct (visible_index_0 _ _ _ _ Hf) as (x & Hx & Hxv & Hxn).
  destruct (visible_index_0 _ _ _ _ Ht) as (y & Hy & Hyv & Hyn).
  exists f, t, x, y. split_and!; try done.
  unfold ListingForm.moveExisting. cbv zeta.
  by rewrite Hf, Ht, Hx.
Qed.

(** The number of visible images in front of the insertion point is not
    changed by taking the moved image out. *)
Lemma visible_before_target del l f t x y :
  l !! f = Some x → id x ∉ del → l !! t = Some y → id y ∉ del →
  length (filter (λ x, id x ∉ del) (take t (delete f l)))
  = length (filter (λ x, id x ∉ del) (take t l)).
Proof.
  intros Hx Hxv Hy Hyv.
  pose proof (lookup_lt_Some _ _ _ Hx) as Hfl.
  pose proof (lookup_lt_Some _ _ _ Hy) as Htl.
  destruct (decide (f < t)) as [Hlt|Hge].
  - assert (take t (delete f l) = delete f (take (S t) l)) as ->.
    { rewrite !delete_take_drop, take_take.
      replace (f `min` S t) with f by lia.
      rewrite take_app_ge by (rewrite length_take; lia).
      rewrite length_take. replace (f `min` length l) with f by lia.
      f_equal. rewrite take_drop_commute. do 2 f_equal. lia. }
    assert (take (S t) l !! f = Some x) as Hx'
      by by rewrite lookup_take_lt by lia.
    rewrite (filter_delete_visible _ f x) by done.
    pose proof (visible_at del _ _ _ Hx' Hxv) as Hat.
    apply lookup_lt_Some in Hat.
    rewrite length_delete by by apply lookup_lt_is_Some_2.
    rewrite (take_S_r _ _ y Hy), filter_app, length_app.
    rewrite filter_cons_True by done. simpl. lia.
  - rewrite delete_take_drop, take_app_le by (rewrite length_take; lia).
    rewrite take_take. by replace (t `min` f) with t by lia.
Qed.
End form_moves.

Section form_move_results.
Implicit Types (x y : ExistingImage) (prev : list ExistingImage).
Implicit Types (del : list string).

Lemma delete_splice_in {A} (i : nat) (a : A) (m : list A) :
  i ≤ length m → delete i (ListingForm.splice_in i a m) = m.
Proof.
  intros Hi. unfold ListingForm.splice_in.
  rewrite delete_take_drop, take_app_le, take_take
    by (rewrite length_take; lia).
  replace (i `min` i) with i by lia.
  rewrite drop_app_ge by (rewrite length_take; lia).
  rewrite length_take. replace (S i - i `min` length m) with 1 by lia.
  simpl. rewrite drop_0. apply take_drop.
Qed.

Lemma splice_in_delete {A} (i : nat) (a : A) (m : list A) :
  m !! i = Some a → ListingForm.splice_in i a (delete i m) = m.
Proof.
  intros Hi. pose proof (lookup_lt_Some _ _ _ Hi).
  unfold ListingForm.splice_in.
  rewrite delete_take_drop, take_app_le, take_take
    by (rewrite length_take; lia).
  replace (i `min` i) with i by lia.
  rewrite drop_app_ge by (rewrite length_take; lia).
  rewrite length_take. replace (i - i `min` length m) with 0 by lia.
  rewrite drop_0. by apply take_drop_middle.
Qed.

Lemma splice_in_lookup {A} (i : nat) (a : A) (m : list A) :
  i ≤ length m → ListingForm.splice_in i a m !! i = Some a.
Proof.
  intros Hi. unfold ListingForm.splice_in.
  rewrite lookup_app_r by (rewrite length_take; lia).
  rewrite length_take. by replace (i - i `min` length m) with 0 by lia.
Qed.

Lemma moveExisting_visible del from to prev x :
  filter (λ x, id x ∉ del) prev !! from = Some x →
  to < length (filter (λ x, id x ∉ del) prev) →
  filter (λ x, id x ∉ del) (ListingForm.moveExisting del from to prev)
  = ListingForm.splice_in to x (delete from (filter (λ x, id x ∉ del) prev)).
Proof.
  intros Hx Hto. pose proof (lookup_lt_Some _ _ _ Hx) as Hfrom.
  destruct (moveExisting_unfold del from to prev Hfrom Hto)
    as (f & t & x' & y & Hf & Hxv & Hfn & Ht & Hyv & Htn & ->).
  pose proof (visible_at del _ _ _ Hf Hxv) as Hat.
  rewrite Hfn, Hx in Hat. injection Hat as <-.
  unfold ListingForm.splice_in at 1.
  rewrite filter_app, filter_cons_True by done.
  destruct (filter_take_prefix (λ x, id x ∉ del) t (delete f prev))
    as [E1 E2].
  rewrite (visible_before_target del prev f t x y), Htn in E1, E2 by done.
  rewrite E1, E2, (filter_delete_visible _ f x), Hfn by done.
  done.
Qed.
End form_move_results.

(** X16. [moveExisting] only reorders: the state keeps exactly its images, and
    the images marked as deleted keep their order among themselves. *)
Theorem moveExisting_keeps_images (del : list string) (from to : nat)
    (prev : list ExistingImage) :
  ListingForm.moveExisting del from to prev ≡ₚ prev
  ∧ filter (λ x, id x ∈ del) (ListingForm.moveExisting del from to prev)
    = filter (λ x, id x ∈ del) prev.
Proof.
  unfold ListingForm.moveExisting. cbv zeta.
  destruct (_ !! from) as [f|] eqn:Hf; [|done].
  destruct (_ !! to) as [t|] eqn:Ht; [|done].
  destruct (visible_index_0 _ _ _ _ Hf) as (x & Hx & Hxv & _).
  rewrite Hx. split.
  - rewrite splice_in_perm. symmetry. by apply delete_Permutation.
  - unfold ListingForm.splice_in.
    rewrite filter_app, filter_cons_False by (intros ?; by apply Hxv).
    rewrite <-filter_app, take_drop, delete_take_drop.
    rewrite <-(take_drop_middle prev f x Hx) at 3.
    rewrite !filter_app. f_equal.
    by rewrite filter_cons_False by (intros ?; by apply Hxv).
Qed.

(** X17. On screen, [moveExisting(from, to)] takes the image shown at [from] out
    of the row of visible images and puts it back at [to]; the images marked
    as deleted do not count. *)
Theorem moveExisting_visible_order (del : list string) (from to : nat)
    (prev : list ExistingImage) (x : ExistingImage) :
  filter (λ x, id x ∉ del) prev !! from = Some x →
  to < length (filter (λ x, id x ∉ del) prev) →
  filter (λ x, id x ∉ del) (ListingForm.moveExisting del from to prev)
  = ListingForm.splice_in to x (delete from (filter (λ x, id x ∉ del) prev)).
Proof. apply moveExisting_visible. Qed.

Lemma moveExisting_visible_order_witness :
  filter (λ x, id x ∉ ["Y"])
    (ListingForm.moveExisting ["Y"] 0 1 [imgX; imgY; imgZ])
  = ListingForm.splice_in 1 imgX
      (delete 0 (filter (λ x, id x ∉ ["Y"]) [imgX; imgY; imgZ])).
Proof.
  apply (moveExisting_visible_order ["Y"] 0 1 [imgX; imgY; imgZ] imgX).
  - vm_compute. reflexivity.
  - vm_compute. lia.
Defined.

(** X18. Moving an image and then moving it back restores the order shown on
    screen. *)
Theorem moveExisting_there_and_back (del : list string) (from to : nat)
    (prev : list ExistingImage) :
  from < length (filter (λ x, id x ∉ del) prev) →
  to < length (filter (λ x, id x ∉ del) prev) →
  filter (λ x, id x ∉ del)
    (ListingForm.moveExisting del to from
       (ListingForm.moveExisting del from to prev))
  = filter (λ x, id x ∉ del) prev.
Proof.
  intros Hfrom Hto.
  destruct (lookup_lt_is_Some_2 _ _ Hfrom) as [x Hx].
  pose proof (moveExisting_visible del from to prev x Hx Hto) as Hv.
  assert (length (delete from (filter (λ x, id x ∉ del) prev))
          = length (filter (λ x, id x ∉ del) prev) - 1) as Hlen.
  { rewrite length_delete by eauto. lia. }
  rewrite (moveExisting_visible del to from _ x).
  - rewrite Hv, delete_splice_in by lia. by apply splice_in_delete.
  - rewrite Hv. apply splice_in_lookup. lia.
  - rewrite Hv. unfold ListingForm.splice_in.
    rewrite length_app, length_take. simpl. rewrite length_drop. lia.
Qed.

Lemma moveExisting_there_and_back_witness :
  filter (λ x, id x ∉ ["Y"])
    (ListingForm.moveExisting ["Y"] 1 0
       (ListingForm.moveExisting ["Y"] 0 1 [imgX; imgY; imgZ]))
  = filter (λ x, id x ∉ ["Y"]) [imgX; imgY; imgZ].
Proof.
  apply (moveExisting_there_and_back ["Y"] 0 1 [imgX; imgY; imgZ]).
  - vm_compute. lia.
  - vm_compute. lia.
Defined.

(** ** The edit form: saving without reordering *)

Section form_save.
Implicit Types (x y r : ExistingImage) (t rows : list ExistingImage).
Implicit Types (w : Remote) (del : list string).

(** In a list sorted by distinct positions, the element at index [m] is at
    least [m] above the lower bound of the list. *)
Lemma sorted_lower_bound rows (b : Z) (m : nat) y :
  StronglySorted le_position rows → NoDup (positions rows) →
  Forall (λ x, (b ≤ position x)%Z) rows →
  rows !! m = Some y → (b + Z.of_nat m ≤ position y)%Z.
Proof.
  intros Hs. revert b m. induction Hs as [|a rows Hs IH Ha]; intros b m;
    [done|].
  unfold positions. rewrite fmap_cons. fold (positions rows).
  intros [Hout Hnd]%NoDup_cons [Hb Hall]%Forall_cons Hm.
  destruct m as [|m]; simpl in Hm.
  { injection Hm as <-. lia. }
  assert (b + 1 + Z.of_nat m ≤ position y)%Z; [|lia].
  apply (IH (b + 1)%Z m Hnd); [|done].
  apply Forall_forall. intros x Hx.
  pose proof (proj1 (Forall_forall _ _) Ha x Hx) as Hle.
  unfold le_position in Hle.
  assert (position x ≠ position a); [|lia].
  intros Heq. apply Hout. rewrite <-Heq. unfold positions.
  by apply list_elem_of_fmap_2.
Qed.

(** Step 2 of the save: the rows marked as deleted leave the table. *)
Lemma form_delete_step del existing w :
  lossless w →
  ∃ w1,
    (if bool_decide (del = []) then resolve tt
     else
       let toDelete := filter (λ x, id x ∈ del) existing in
       do! db_delete_in del in
       let paths :=
         path <$> filter (λ x, bucket x = "car-images") toDelete in
       if bool_decide (paths = []) then resolve tt
       else storage_remove "car-images" paths) w
    = (w1, Resolved tt)
    ∧ table w1 = filter (λ x, id x ∉ del) (table w)
    ∧ favorites w1 = favorites w
    ∧ lossless w1.
Proof.
  intros Hl. case_bool_decide as Hdel.
  { exists w. split_and!; try done. subst del. symmetry.
    apply filter_all, Forall_forall. intros x _. apply not_elem_of_nil. }
  cbv zeta. unfold await, db_delete_in.
  rewrite (request_ok _ _ _ (filter (λ x, id x ∉ del) (table w)) tt)
    by done.
  case_bool_decide as Hpaths.
  { eexists. split_and!; [done..|]. still_lossless. }
  unfold storage_remove.
  rewrite (request_ok _ _ _ (filter (λ x, id x ∉ del) (table w)) tt)
    by (done || still_lossless).
  eexists. split_and!; [done..|]. still_lossless.
Qed.

Lemma form_save_in_order del w :
  lossless w → NoDup (ids (table w)) → NoDup (positions (table w)) →
  Forall (λ x, (0 ≤ position x)%Z) (table w) →
  ∃ w',
    ListingForm.saveExistingImages del (sortByPosition (table w)) w
    = (w', Resolved tt)
    ∧ sortByPosition (table w')
      = renumber (filter (λ x, id x ∉ del) (sortByPosition (table w)))
    ∧ gapless (table w').
Proof.
  intros Hl Hids Hpos Hnn.
  unfold ListingForm.saveExistingImages. unfold await at 1.
  destruct (form_delete_step del (sortByPosition (table w)) w Hl)
    as (w1 & Hstep & Ht1 & _ & Hl1).
  cbv zeta in Hstep. rewrite Hstep.
  unfold ListingForm.positionUpdates. cbv zeta.
  rewrite <-sortByPosition_filter.
  set (t1 := filter (λ x, id x ∉ del) (table w)) in *.
  set (rows := sortByPosition t1).
  change (imap (λ idx img, (id img, Z.of_nat idx)) rows)
    with (phase_writes 0 rows).
  assert (rows ≡ₚ t1) as Hp by apply sortByPosition_perm.
  assert (NoDup (ids t1)) as Hids1.
  { eapply sublist_NoDup; [exact Hids|]. apply fmap_sublist, sublist_filter. }
  assert (NoDup (positions t1)) as Hpos1.
  { eapply sublist_NoDup; [exact Hpos|]. apply fmap_sublist, sublist_filter. }
  assert (NoDup (ids rows)) as Hrows by (unfold ids; by rewrite Hp).
  assert (NoDup (positions rows)) as Hprows
    by (unfold positions; by rewrite Hp).
  assert (Forall (λ x, (0 ≤ position x)%Z) rows) as Hnn1.
  { rewrite Hp. apply Forall_forall. intros x [_ Hx]%list_elem_of_filter.
    by apply (proj1 (Forall_forall _ _) Hnn). }
  rewrite updateImagePositions_all, write_all_ok; [| done | by rewrite Ht1 |].
  - eexists. split; [done|]. fields. rewrite Ht1.
    assert (sortByPosition (apply_writes (phase_writes 0 rows) t1)
            = renumber rows) as Hfinal.
    { rewrite <-(two_phase_order rows t1) by done.
      by rewrite two_phase_closed, apply_phase_writes by done. }
    split; [done|]. apply gapless_of_sorted. rewrite Hfinal.
    apply renumber_settled.
  - intros k _. rewrite Ht1, take_phase_writes.
    rewrite apply_phase_writes by by apply NoDup_ids_take.
    apply NoDup_assign; [done|done|unfold shifted; lia|].
    intros j y Hj Hy Hout. rewrite length_take in Hj.
    rewrite <-Hp in Hy. apply list_elem_of_lookup in Hy as [m Hm].
    assert (k ≤ m).
    { destruct (decide (k ≤ m)); [done|]. exfalso. apply Hout.
      unfold ids. apply list_elem_of_fmap_2, list_elem_of_lookup.
      exists m. rewrite lookup_take_lt by lia. done. }
    pose proof (sorted_lower_bound rows 0 m y
                  (sortByPosition_sorted t1) Hprows Hnn1 Hm).
    unfold shifted. lia.
Qed.
End form_save.

(** X19. When the edit form is saved with images marked as deleted but none
    moved (the state is still the fetched order), the single renumbering
    pass meets no occupied position: the save resolves and the remaining
    rows are at [0 .. m-1] in their old order. *)
Theorem form_save_without_moves (del : list string) (w : Remote) :
  lossless w → NoDup (ids (table w)) → NoDup (positions (table w)) →
  Forall (λ x, (0 ≤ position x)%Z) (table w) →
  ∃ w',
    ListingForm.saveExistingImages del (sortByPosition (table w)) w
    = (w', Resolved tt)
    ∧ sortByPosition (table w')
      = renumber (filter (λ x, id x ∉ del) (sortByPosition (table w)))
    ∧ gapless (table w').
Proof. apply form_save_in_order. Qed.

Lemma form_save_without_moves_witness :
  ∃ w',
    ListingForm.saveExistingImages ["Y"]
      (sortByPosition (table (reliable [imgX; imgY; imgZ])))
      (reliable [imgX; imgY; imgZ])
    = (w', Resolved tt)
    ∧ sortByPosition (table w')
      = renumber (filter (λ x, id x ∉ ["Y"])
                    (sortByPosition (table (reliable [imgX; imgY; imgZ]))))
    ∧ gapless (table w').
Proof.
  apply (form_save_without_moves ["Y"] (reliable [imgX; imgY; imgZ])).
  - constructor.
  - apply (bool_decide_unpack _). vm_compute. reflexivity.
  - apply (bool_decide_unpack _). vm_compute. reflexivity.
  - repeat constructor; simpl; lia.
Defined.

(** ** Favorites on the results page *)

Section favorites_tracking.
Implicit Types (pg : ListingsPage.Page) (page : gset string).

Lemma tracks_step page a pg :
  on_page page a → tracks page pg → tracks page (ListingsPage.step a pg).
Proof.
  intros Ha (Hu & Hs & Hr).
  destruct pg as [u c s p r sh b]. simpl in *. subst s.
  destruct a as [l|]; simpl in Ha.
  - unfold ListingsPage.step, ListingsPage.disabled. simpl.
    destruct u as [u|]; [|done]. rewrite bool_decide_eq_false_2 by done.
    simpl. destruct r as [[ctx [[]|e]]|].
    + destruct Hr as [-> Hc]. by split_and!.
    + destruct Hr as [-> Hc]. by split_and!.
    + destruct Hr as [-> ->]. simpl.
      unfold fav_delete, fav_insert, request_on.
      destruct (bool_decide (l ∈ favorites b ∩ page)) eqn:Hin.
      * apply bool_decide_eq_true_1 in Hin.
        destruct (default false (head (plan b))); unfold tracks; simpl;
          split_and!; try done.
        f_equal. set_solver.
      * apply bool_decide_eq_false_1 in Hin.
        destruct (default false (head (plan b))); unfold tracks; simpl;
          [by split_and!|].
        rewrite bool_decide_eq_false_2 by set_solver. simpl.
        split_and!; try done. f_equal. set_solver.
  - unfold ListingsPage.step. simpl.
    destruct r as [[ctx [[]|e]]|]; unfold tracks; simpl.
    + destruct Hr as [_ Hc]. by split_and!.
    + destruct Hr as [_ Hc]. destruct ctx as [pr]. simpl in *. subst pr.
      by split_and!.
    + done.
Qed.

Lemma tracks_steps page evs pg :
  Forall (on_page page) evs → tracks page pg →
  tracks page (ListingsPage.steps evs pg).
Proof.
  intros Hevs. revert pg.
  induction Hevs as [|a evs Ha _ IH]; intros pg Hpg; [done|].
  unfold ListingsPage.steps. simpl. apply IH. by apply tracks_step.
Qed.
End favorites_tracking.

(** X20. The optimistic set never drifts from the store. Start from a rendered
    page whose cached set is what the user has saved among the listings of
    the page. After any sequence of clicks on the page's buttons and
    settlements, whatever requests the network drops, whenever no toggle is
    in flight the cached set is again exactly what the store holds for
    the page. *)
Theorem favorites_cache_tracks_store (u : string) (page saved : gset string)
    (plan : list bool) (evs : list ListingsPage.Action) :
  Forall (on_page page) evs →
  ListingsPage.running
    (ListingsPage.steps evs
       (ListingsPage.at_rest u (Some (saved ∩ page)) saved plan)) = None →
  ListingsPage.favCache
    (ListingsPage.steps evs
       (ListingsPage.at_rest u (Some (saved ∩ page)) saved plan))
  = Some (favorites
            (ListingsPage.backend
               (ListingsPage.steps evs
                  (ListingsPage.at_rest u (Some (saved ∩ page)) saved plan)))
          ∩ page).
Proof.
  intros Hevs Hrest.
  assert (tracks page
            (ListingsPage.at_rest u (Some (saved ∩ page)) saved plan))
    as H0 by by split_and!.
  destruct (tracks_steps page evs _ Hevs H0) as (_ & _ & Hr).
  rewrite Hrest in Hr. by destruct Hr.
Qed.

Lemma favorites_cache_tracks_store_witness :
  ListingsPage.favCache
    (ListingsPage.steps
       [ListingsPage.Click "a"; ListingsPage.Settle;
        ListingsPage.Click "b"; ListingsPage.Settle]
       (ListingsPage.at_rest "u" (Some ({["a"]} ∩ {["a"; "b"]}))
          {["a"]} [true; false]))
  = Some (favorites
            (ListingsPage.backend
               (ListingsPage.steps
                  [ListingsPage.Click "a"; ListingsPage.Settle;
                   ListingsPage.Click "b"; ListingsPage.Settle]
                  (ListingsPage.at_rest "u" (Some ({["a"]} ∩ {["a"; "b"]}))
                     {["a"]} [true; false])))
          ∩ {["a"; "b"]}).
Proof.
  apply (favorites_cache_tracks_store "u" {["a"; "b"]} {["a"]}
           [true; false]
           [ListingsPage.Click "a"; ListingsPage.Settle;
            ListingsPage.Click "b"; ListingsPage.Settle]).
  - repeat constructor; simpl; set_solver.
  - vm_compute. reflexivity.
Defined.

(** ** File extensions of uploaded images *)

Section file_extensions.
Implicit Types (s filename : string).

(** Splitting at the dots and looking for the last dot see the same
    extension. *)
Lemma split_dot_last s :
  (ListingForm.lastIndexOf_dot s = (-1)%Z ∧ Uploader.split_dot s = [s])
  ∨ ((0 ≤ ListingForm.lastIndexOf_dot s)%Z
     ∧ 1 < length (Uploader.split_dot s)
     ∧ last (Uploader.split_dot s)
       = Some (ListingForm.slice
                 (Z.to_nat (ListingForm.lastIndexOf_dot s + 1)) s)).
Proof.
  induction s as [|c s IH]; [by left|].
  cbn [ListingForm.lastIndexOf_dot Uploader.split_dot]. cbv zeta.
  destruct IH as [[Hi Hs]|(Hi & Hlen & Hlast)].
  - rewrite Hi, Hs. rewrite bool_decide_eq_false_2 by lia.
    destruct (Ascii.eqb c "."); [|by left].
    right. split_and!; [lia|simpl; lia|done].
  - rewrite bool_decide_eq_true_2 by lia. right. split; [lia|].
    replace (Z.to_nat (ListingForm.lastIndexOf_dot s + 1 + 1))
      with (S (Z.to_nat (ListingForm.lastIndexOf_dot s + 1))) by lia.
    cbn [ListingForm.slice].
    destruct (Uploader.split_dot s) as [|part parts]; [simpl in Hlen; lia|].
    destruct parts as [|part' parts]; [simpl in Hlen; lia|].
    destruct (Ascii.eqb c "."); split; try (simpl; lia); done.
Qed.
End file_extensions.

(** X21. The two uploaders compute the extension of an uploaded file in two
    ways, by splitting at the dots and by looking for the last dot: both
    give the same extension for every file name. After [safeImageExt] the
    paths differ for one extension only, [gif], which the form replaces by
    [jpg]. *)
Theorem upload_extension_agrees (toLowerCase : string → string)
    (filename : string) :
  Uploader.getFileExt toLowerCase filename
  = ListingForm.getFileExt toLowerCase filename
  ∧ ListingForm.safeImageExt (ListingForm.getFileExt toLowerCase filename)
    = if bool_decide
           (Uploader.safeImageExt (Uploader.getFileExt toLowerCase filename)
            = "gif")
      then "jpg"
      else Uploader.safeImageExt (Uploader.getFileExt toLowerCase filename).
Proof.
  assert (Uploader.getFileExt toLowerCase filename
          = ListingForm.getFileExt toLowerCase filename) as Heq.
  { unfold Uploader.getFileExt, ListingForm.getFileExt. cbv zeta.
    destruct (split_dot_last filename) as [[Hi Hs]|(Hi & Hlen & Hlast)].
    - rewrite Hi, Hs.
      rewrite (bool_decide_eq_false_2 (1 < _)) by (simpl; lia).
      by rewrite bool_decide_eq_true_2 by lia.
    - rewrite (bool_decide_eq_true_2 (1 < _)), Hlast by done.
      by rewrite bool_decide_eq_false_2 by lia. }
  split; [done|]. rewrite Heq.
  generalize (ListingForm.getFileExt toLowerCase filename). intros e.
  unfold ListingForm.safeImageExt, Uploader.safeImageExt.
  destruct (decide (e = "jpg")) as [->|]; [done|].
  destruct (decide (e = "jpeg")) as [->|]; [done|].
  destruct (decide (e = "png")) as [->|]; [done|].
  destruct (decide (e = "webp")) as [->|]; [done|].
  destruct (decide (e = "gif")) as [->|]; [done|].
  rewrite (bool_decide_eq_false_2 (e ∈ ["jpg"; "jpeg"; "png"; "webp"]))
    by set_solver.
  by rewrite
    (bool_decide_eq_false_2 (e ∈ ["jpg"; "jpeg"; "png"; "webp"; "gif"]))
    by set_solver.
Qed.

(** ** Pages of the results list *)

Section paging.
Local Open Scope Z_scope.

Lemma totalPages_bounds total :
  1 ≤ ListingsPage.totalPages total
  ∧ total ≤ ListingsPage.totalPages total * ListingsPage.PAGE_SIZE
  ∧ (0 < total →
     (ListingsPage.totalPages total - 1) * ListingsPage.PAGE_SIZE < total).
Proof.
  unfold ListingsPage.totalPages, ListingsPage.PAGE_SIZE.
  pose proof (Z.div_mod (- total) 25 ltac:(lia)).
  pose proof (Z.mod_pos_bound (- total) 25 ltac:(lia)).
  lia.
Qed.
End paging.

(** X22. With [total] matching rows, every row index [0 ≤ i < total] lies in the
    range of exactly one page, that page is among [1 .. totalPages], and the
    last page is not empty. *)
Theorem every_row_on_one_page (total i : Z) :
  (0 ≤ i < total)%Z →
  ∃ page,
    (1 ≤ page ≤ ListingsPage.totalPages total)%Z
    ∧ ((ListingsPage.range page).1 ≤ i ≤ (ListingsPage.range page).2)%Z
    ∧ (∀ page',
         ((ListingsPage.range page').1 ≤ i ≤ (ListingsPage.range page').2)%Z
         → page' = page)
    ∧ ((ListingsPage.range (ListingsPage.totalPages total)).1 < total)%Z.
Proof.
  intros Hi.
  destruct (totalPages_bounds total) as (H1 & Hup & Hlow).
  unfold ListingsPage.range, ListingsPage.PAGE_SIZE in *. cbv zeta.
  cbn [fst snd].
  pose proof (Z.div_mod i 25 ltac:(lia)).
  pose proof (Z.mod_pos_bound i 25 ltac:(lia)).
  exists (i / 25 + 1)%Z. split_and!; try lia.
Qed.

Lemma every_row_on_one_page_witness :
  ∃ page,
    (1 ≤ page ≤ ListingsPage.totalPages 26)%Z
    ∧ ((ListingsPage.range page).1 ≤ 25 ≤ (ListingsPage.range page).2)%Z
    ∧ (∀ page',
         ((ListingsPage.range page').1 ≤ 25 ≤ (ListingsPage.range page').2)%Z
         → page' = page)
    ∧ ((ListingsPage.range (ListingsPage.totalPages 26)).1 < 26)%Z.
Proof. apply (every_row_on_one_page 26 25). lia. Defined.

(** X23. [goToPage] never leaves [1 .. totalPages], whatever page is asked for,
    and asking again for the page it chose changes nothing. *)
Theorem goToPage_in_range (total p : Z) :
  (1 ≤ ListingsPage.goToPage total p ≤ ListingsPage.totalPages total)%Z
  ∧ ListingsPage.goToPage total (ListingsPage.goToPage total p)
    = ListingsPage.goToPage total p.
Proof.
  destruct (totalPages_bounds total) as (H1 & _).
  unfold ListingsPage.goToPage, ListingsPage.clamp. lia.
Qed.

(** X24. The Prev and Next buttons ([disabled={page <= 1}],
    [disabled={page >= totalPages}]): an enabled Next goes to the next page;
    an enabled Prev goes to the previous page, or to the last page when the
    URL named a page beyond it. *)
Theorem page_buttons (total page : Z) :
  (1 ≤ page)%Z →
  ((page < ListingsPage.totalPages total)%Z →
   ListingsPage.goToPage total (page + 1) = (page + 1)%Z)
  ∧ ((1 < page)%Z →
     ListingsPage.goToPage total (page - 1)
     = Z.min (page - 1) (ListingsPage.totalPages total)).
Proof.
  intros Hp. destruct (totalPages_bounds total) as (H1 & _).
  unfold ListingsPage.goToPage, ListingsPage.clamp. lia.
Qed.

Lemma page_buttons_witness :
  ((7 < ListingsPage.totalPages 60)%Z →
   ListingsPage.goToPage 60 (7 + 1) = (7 + 1)%Z)
  ∧ ((1 < 7)%Z →
     ListingsPage.goToPage 60 (7 - 1)
     = Z.min (7 - 1) (ListingsPage.totalPages 60)).
Proof. apply (page_buttons 60 7). lia. Defined.

(** ** The picture shown for a listing *)

Section cover_image.
Implicit Types (x y c : ExistingImage) (l t : list ExistingImage).

Lemma cover_head l c rest :
  sortByPosition l = c :: rest →
  c ∈ l ∧ Forall (λ x, (position c ≤ position x)%Z) l.
Proof.
  intros Hs. pose proof (sortByPosition_perm l) as Hp.
  pose proof (sortByPosition_sorted l) as Hsorted.
  rewrite Hs in Hp, Hsorted. split.
  - rewrite <-Hp. left.
  - rewrite <-Hp. constructor; [lia|].
    by apply StronglySorted_inv in Hsorted as [_ ?].
Qed.

Lemma cover_unique_least l m :
  m ∈ l →
  (∀ x, x ∈ l → x ≠ m → (position m < position x)%Z) →
  ListingsPage.cover l = Some m.
Proof.
  intros Hm Hleast. unfold ListingsPage.cover.
  destruct (sortByPosition l) as [|c rest] eqn:Hs.
  { pose proof (sortByPosition_perm l) as Hp. rewrite Hs in Hp.
    apply Permutation_nil_l in Hp. subst l. by apply elem_of_nil in Hm. }
  destruct (cover_head l c rest Hs) as [Hc Hall].
  simpl. f_equal. destruct (decide (c = m)) as [|Hne]; [done|].
  pose proof (Hleast c Hc Hne).
  pose proof (proj1 (Forall_forall _ _) Hall m Hm). simpl in *. lia.
Qed.
End cover_image.

(** X25. The card of a listing shows an image of the listing with the least
    position, and no picture only when the listing has no image. *)
Theorem cover_is_least (l : list ExistingImage) :
  match ListingsPage.cover l with
  | Some c => c ∈ l ∧ Forall (λ x, (position c ≤ position x)%Z) l
  | None => l = []
  end.
Proof.
  unfold ListingsPage.cover.
  destruct (sortByPosition l) as [|c rest] eqn:Hs; simpl.
  - pose proof (sortByPosition_perm l) as Hp. rewrite Hs in Hp.
    by apply Permutation_nil_l in Hp.
  - by apply (cover_head l c rest).
Qed.



(** X27. A swap interrupted after its first write changes the picture of the
    listing: the image parked on the sentinel is below every other position,
    so the results page shows it as the cover, while the uploader's cache
    has been rolled back to the old order. *)
Theorem interrupted_swap_changes_the_card (a b : ExistingImage) (ui : Ui)
    (w : Remote) (rest : list bool) :
  plan w = false :: true :: rest →
  NoDup (ids (table w)) → NoDup (positions (table w)) →
  Forall (λ x, (0 ≤ position x)%Z) (table w) →
  a ∈ table w →
  ∃ ui' w',
    Uploader.reorderMutation a b (ui, w) = (ui', w', Rejected NetworkFailure)
    ∧ ListingsPage.cover (table w') = Some (with_position Uploader.temp a)
    ∧ cache ui' = Some (default [] (cache ui)).
Proof.
  intros Hplan Hids Hpos Hnn Ha.
  assert (Uploader.temp ∉ positions (table w)) as Htemp.
  { intros (x & Hx & Hin)%list_elem_of_fmap.
    pose proof (proj1 (Forall_forall _ _) Hnn x Hin) as H0. simpl in H0.
    rewrite <-Hx in H0. unfold Uploader.temp in H0. lia. }
  unfold Uploader.reorderMutation, Uploader.run. cbn [fst snd].
  destruct (Uploader.reorderMutation_onMutate a b ui) as [ui1 ctx] eqn:Hm.
  assert (ctx = {| prev := default [] (cache ui) |}) as ->.
  { unfold Uploader.reorderMutation_onMutate in Hm. by injection Hm. }
  rewrite (reorderMutation_fn_interrupted a b w rest) by done.
  eexists _, _. split_and!; [done| |done]. fields.
  apply cover_unique_least.
  - unfold set_position_of. apply list_elem_of_fmap.
    exists a. by rewrite bool_decide_eq_true_2.
  - intros x (y & -> & Hy)%list_elem_of_fmap Hne.
    case_bool_decide as Hid.
    + exfalso. apply Hne.
      by rewrite (inj_on_NoDup id (table w) y a Hids Hy Ha Hid).
    + pose proof (proj1 (Forall_forall _ _) Hnn y Hy) as H0. simpl in *.
      unfold Uploader.temp. lia.
Qed.

Lemma interrupted_swap_changes_the_card_witness :
  ∃ ui' w',
    Uploader.reorderMutation imgY imgZ
      (loaded [imgX; imgY; imgZ],
       {| table := [imgX; imgY; imgZ]; favorites := ∅; issued := [];
          plan := [false; true] |})
    = (ui', w', Rejected NetworkFailure)
    ∧ ListingsPage.cover (table w')
      = Some (with_position Uploader.temp imgY)
    ∧ cache ui' = Some (default [] (cache (loaded [imgX; imgY; imgZ]))).
Proof.
  apply (interrupted_swap_changes_the_card imgY imgZ
           (loaded [imgX; imgY; imgZ])
           {| table := [imgX; imgY; imgZ]; favorites := ∅; issued := [];
              plan := [false; true] |} []).
  - reflexivity.
  - apply (bool_decide_unpack _). vm_compute. reflexivity.
  - apply (bool_decide_unpack _). vm_compute. reflexivity.
  - repeat constructor; simpl; lia.
  - simpl. right. left.
Defined.

(** ** The store under a sequence of mutations *)

Section plan_spent.

Lemma spends_resolve {A} (a : A) : spends_plan (resolve a).
Proof. intros w. by exists 0. Qed.

Lemma spends_request_on {T A} get put c (serve : T → Outcome (T * A)) :
  (∀ t w, plan (put t w) = plan w) →
  spends_plan (request_on get put c serve).
Proof.
  intros Hput w. exists 1. unfold request_on.
  destruct (default false (head (plan w))); [by destruct (plan w)|].
  destruct (serve (get w)) as [[t' a]|e]; by destruct (plan w).
Qed.

Lemma spends_request {A} c
    (serve : list ExistingImage → Outcome (list ExistingImage * A)) :
  spends_plan (request c serve).
Proof. by apply spends_request_on. Qed.

Lemma spends_await {A B} (m : Async A) (k : A → Async B) :
  spends_plan m → (∀ a, spends_plan (k a)) → spends_plan (await m k).
Proof.
  intros Hm Hk w. unfold await. destruct (Hm w) as [k1 H1].
  destruct (m w) as [w1 [a|e]]; simpl in *.
  - destruct (Hk a w1) as [k2 H2]. exists (k1 + k2).
    by rewrite H2, H1, drop_drop.
  - by exists k1.
Qed.

Lemma spends_best_effort {A} (m : Async A) :
  spends_plan m → spends_plan (best_effort m).
Proof. intros Hm w. destruct (Hm w) as [k Hk]. by exists k. Qed.

Lemma spends_write_from offset i rows :
  spends_plan (write_from offset i rows).
Proof.
  revert i. induction rows as [|r rows IH]; intros i; simpl.
  - apply spends_resolve.
  - apply spends_await; [apply spends_request|]. intros _. apply IH.
Qed.

Lemma spends_two_phase rows : spends_plan (two_phase rows).
Proof.
  apply spends_await; [apply spends_write_from|].
  intros _. apply spends_write_from.
Qed.

Lemma spends_mutationFn (m : ImageMutation) : spends_plan (mutationFn m).
Proof.
  destruct m as [img|a b|img]; simpl.
  - apply spends_await; [apply spends_request|]. intros _.
    apply spends_await; [apply spends_best_effort, spends_request|].
    intros _. apply spends_await; [apply spends_request|]. intros rows.
    apply spends_two_phase.
  - apply spends_await; [apply spends_request|]. intros _.
    apply spends_await; [apply spends_request|]. intros _.
    apply spends_request.
  - apply spends_await; [apply spends_request|]. intros rows. cbv zeta.
    destruct (bool_decide _); [apply spends_resolve|apply spends_two_phase].
Qed.

Lemma mutationFn_lossless (m : ImageMutation) (w : Remote) :
  lossless w → lossless (mutationFn m w).1.
Proof.
  intros Hl. destruct (spends_mutationFn m w) as [k Hk].
  unfold lossless. rewrite Hk. by apply Forall_drop.
Qed.
End plan_spent.

Section kept.
Implicit Types (x y r img : ExistingImage) (t rows : list ExistingImage).
Implicit Types (w : Remote).

Lemma well_kept_positions t :
  well_kept t →
  NoDup (positions t) ∧ ∀ p, p ∈ positions t → (0 ≤ p < 1000)%Z.
Proof.
  intros (_ & Hg & Hlen). unfold gapless in Hg. split.
  - rewrite Hg. apply seq_NoDup.
  - intros p. rewrite Hg. intros (j & -> & Hj)%list_elem_of_fmap.
    apply elem_of_seq in Hj. lia.
Qed.

Lemma ids_swapped a b t : ids (swapped a b t) = ids t.
Proof.
  unfold ids, swapped. rewrite <-list_fmap_compose.
  apply list_fmap_ext. intros _ x _. simpl.
  by repeat case_bool_decide.
Qed.

Lemma mutationFn_keeps (m : ImageMutation) w :
  lossless w → well_kept (table w) → applies m (table w) →
  ∃ w', mutationFn m w = (w', Resolved tt) ∧ well_kept (table w').
Proof.
  intros Hl Hk Ha. pose proof Hk as (Hids & Hg & Hlen).
  destruct (well_kept_positions _ Hk) as [Hpos Hbound].
  destruct m as [img|a b|img]; simpl in *.
  - destruct (deleteMutation_fn_run img w) as (w' & Hrun & _ & Ht & Hs);
      [done..| |].
    { intros r Hr _. apply Hbound. unfold positions.
      by apply list_elem_of_fmap_2. }
    exists w'. split; [done|].
    assert (ids (table w')
            = ids (filter (λ r, id r ≠ id img) (table w))) as Hids'
      by by rewrite Ht, ids_apply_writes.
    split_and!.
    + rewrite Hids'. eapply sublist_NoDup; [exact Hids|].
      apply fmap_sublist, sublist_filter.
    + apply gapless_of_sorted. rewrite Hs. apply renumber_settled.
    + assert (length (table w') = length (ids (table w'))) as ->
        by (unfold ids; by rewrite length_fmap).
      rewrite Hids'. unfold ids. rewrite length_fmap.
      pose proof (length_filter (λ r, id r ≠ id img) (table w)). lia.
  - destruct Ha as (Ha & Hb & Hab).
    destruct (reorderMutation_fn_ok a b w) as (w' & Hrun & Ht & _);
      [done..| | done | done | done |].
    { intros Hin. apply Hbound in Hin. unfold Uploader.temp in Hin. lia. }
    exists w'. split; [done|]. rewrite Ht. split_and!.
    + by rewrite ids_swapped.
    + by apply swap_gapless.
    + unfold swapped. by rewrite length_fmap.
  - destruct (decide (findIndex (id img) (sortByPosition (table w)) ≤ 0)%Z)
      as [Hle|Hgt].
    + unfold Uploader.setCoverMutation_fn, await.
      rewrite db_select_ok by done.
      rewrite bool_decide_eq_true_2 by done. by eexists.
    + unfold findIndex in Hgt.
      destruct (list_find _ (sortByPosition (table w))) as [[i x]|] eqn:Hf;
        [|lia].
      apply list_find_Some in Hf as (Hi & Hx & _).
      destruct (setCoverMutation_fn_run img w i x)
        as (w' & Hrun & _ & Ht & Hs); [done..| | done | done | lia |].
      { intros p Hp. by apply Hbound. }
      exists w'. split; [done|].
      assert (ids (table w') = ids (table w)) as Hids'
        by by rewrite Ht, ids_apply_writes.
      split_and!.
      * by rewrite Hids'.
      * apply gapless_of_sorted. rewrite Hs. apply renumber_settled.
      * assert (length (table w') = length (ids (table w'))) as ->
          by (unfold ids; by rewrite length_fmap).
        rewrite Hids'. unfold ids. by rewrite length_fmap.
Qed.

Lemma mutationFns_keep ms w :
  lossless w → well_kept (table w) → applicable ms w →
  ∃ w', mutationFns ms w = (w', Resolved tt) ∧ well_kept (table w').
Proof.
  revert w. induction ms as [|m ms IH]; intros w Hl Hk Ha.
  { by exists w. }
  destruct Ha as [Hm Hrest].
  destruct (mutationFn_keeps m w Hl Hk Hm) as (w1 & Hrun & Hk1).
  pose proof (mutationFn_lossless m w Hl) as Hl1.
  rewrite Hrun in Hl1, Hrest. simpl in Hl1, Hrest.
  destruct (IH w1 Hl1 Hk1 Hrest) as (w' & Hrun' & Hk').
  exists w'. split; [|done].
  cbn [mutationFns]. unfold await. by rewrite Hrun.
Qed.
End kept.

(** X28. Whatever the user does with delete, the arrows and "Set cover", one
    mutation after the other on a network that drops nothing, every
    mutation goes through and the listing's rows stay at positions
    [0 .. n-1] with one row per id. The precondition on the number of rows
    is the offset of phase 1. *)
Theorem uploader_keeps_store_gapless (ms : list ImageMutation) (w : Remote) :
  lossless w → well_kept (table w) → applicable ms w →
  ∃ w', mutationFns ms w = (w', Resolved tt) ∧ well_kept (table w').
Proof. apply mutationFns_keep. Qed.

Lemma uploader_keeps_store_gapless_witness :
  ∃ w',
    mutationFns [SwapImages imgX imgY; DeleteImage imgZ; CoverImage imgX]
      (reliable [imgX; imgY; imgZ])
    = (w', Resolved tt)
    ∧ well_kept (table w').
Proof.
  apply (uploader_keeps_store_gapless
           [SwapImages imgX imgY; DeleteImage imgZ; CoverImage imgX]
           (reliable [imgX; imgY; imgZ])).
  - constructor.
  - split_and!.
    + apply (bool_decide_unpack _). vm_compute. reflexivity.
    + unfold gapless. simpl. reflexivity.
    + simpl. lia.
  - cbn [applicable applies]. split_and!; try done.
    + simpl. left.
    + simpl. right. left.
Defined.

(** ** The edit form: a failed save *)



